(** * Chunkis CIS decoder ([read_cis.py]): a shallow embedding and its properties

    The decoding core of the CIS visualizer is embedded function by function:
    [BitReader] (bit-level reads), [CISDecoder] (chunk and micro-cube
    decoding) and the region loop of [CISVisualizer.parse_region].  Python
    integers are [Z]; byte strings are [list byte]; exceptions are the
    [Raise] outcomes of a small error monad. *)

From Equations Require Import Equations.
From stdpp Require Import gmap strings list.
From Stdlib Require Import ZArith Lia DecimalString.
From Stdlib.Strings Require Import Byte.

Open Scope Z_scope.

(** ** Exceptions and the error monad *)

(** The exceptions the decoding core can raise: [struct.error] from
    [struct.unpack], [TypeError] from [ord], [IndexError] from list
    subscripts and [ValueError] from a negative shift count. *)
Inductive exn := StructError | TypeError | IndexError | ValueError.

Inductive outcome (A : Type) :=
| Ok (a : A)
| Raise (e : exn).
Arguments Ok {A} a.
Arguments Raise {A} e.

#[export] Instance outcome_ret : MRet outcome := @Ok.
#[export] Instance outcome_bind : MBind outcome := fun A B f m =>
  match m with
  | Ok a => f a
  | Raise e => Raise e
  end.

(** [len(l)] as a Python integer. *)
Definition len {A} (l : list A) : Z := Z.of_nat (length l).

(** [l[i]] for a Python sequence: a negative index counts from the end, an
    index outside [-len(l), len(l)) raises [IndexError]. *)
Definition getitem {A} (l : list A) (i : Z) : outcome A :=
  let j := if i <? 0 then i + len l else i in
  if j <? 0 then Raise IndexError
  else match l !! Z.to_nat j with
       | Some a => Ok a
       | None => Raise IndexError
       end.

#[export] Instance byte_eq_decision : EqDecision byte := Byte.byte_eq_dec.

(** The integer value of an element of a [bytes] object. *)
Definition byte_val (b : byte) : Z := Z.of_N (Byte.to_N b).

(** ** [BitReader] *)

Record BitReader := mkBitReader {
  data : list byte;
  byte_index : Z;
  bit_index : Z
}.

(** [BitReader.__init__] *)
Definition new_reader (d : list byte) : BitReader := mkBitReader d 0 0.

(** What one iteration of the [while] loop of [BitReader.read] does: either
    the method returns, or the loop goes on with an updated cursor, bit
    count and accumulator. *)
Inductive loop_ctl :=
| Return (v : Z)
| Continue (r : BitReader) (bits result : Z).

(** Lines 21-31: the body of the loop of [BitReader.read].  The only shift
    whose count can be negative is [1 << take]. *)
Definition read_body (r : BitReader) (bits result : Z) : outcome loop_ctl :=
  if byte_index r >=? len (data r) then Ok (Return (Z.shiftl result bits))
  else
    b0 ← getitem (data r) (byte_index r);
    let b := Z.land (byte_val b0) 255 in
    let remaining := 8 - bit_index r in
    let take := Z.min remaining bits in
    if take <? 0 then Raise ValueError
    else
      let chunk := Z.land (Z.shiftr b (remaining - take)) (Z.shiftl 1 take - 1) in
      let result := Z.lor (Z.shiftl result take) chunk in
      let bit_index' := bit_index r + take in
      let bits := bits - take in
      if bit_index' =? 8
      then Ok (Continue (mkBitReader (data r) (byte_index r + 1) 0) bits result)
      else Ok (Continue (mkBitReader (data r) (byte_index r) bit_index') bits result).

(** The loop makes progress: an iteration either takes at least one bit, or
    (cursor left at [bit_index = 8]) moves to the next byte. *)
Definition read_measure (r : BitReader) (bits : Z) : nat :=
  (Z.to_nat (2 * bits) + (if (bit_index r =? 8)%Z then 1 else 0))%nat.

(** Lines 20 and 32: [while bits > 0: ...] followed by [return result]. *)
Equations read_loop (r : BitReader) (bits result : Z) : outcome (Z * BitReader)
  by wf (read_measure r bits) lt :=
read_loop r bits result with Z_lt_dec 0 bits := {
  | right _ := Ok (result, r)
  | left Hpos with Equations.Prop.Logic.inspect (read_body r bits result) := {
      | exist _ (Ok (Return v)) _ := Ok (v, r)
      | exist _ (Ok (Continue r' bits' result')) Hbody := read_loop r' bits' result'
      | exist _ (Raise e) _ := Raise e } }.
Next Obligation.
  intros r bits Hpos result r' bits' result' Hbody _.
  revert Hbody. unfold read_body, read_measure.
  destruct (byte_index r >=? len (data r)); [discriminate|].
  destruct (getitem (data r) (byte_index r)) as [b0|e]; simpl; [|discriminate].
  destruct (Z.ltb_spec (Z.min (8 - bit_index r) bits) 0) as [|Hge]; [discriminate|].
  destruct (Z.eqb_spec (bit_index r + Z.min (8 - bit_index r) bits) 8) as [He|Hne];
    intros [= <- <- <-]; simpl.
  - destruct (Z.eqb_spec (bit_index r) 8); lia.
  - destruct (Z.eqb_spec (bit_index r + Z.min (8 - bit_index r) bits) 8); [lia|].
    destruct (Z.eqb_spec (bit_index r) 8); lia.
Qed.

(** [BitReader.read] *)
Definition read (bits : Z) (r : BitReader) : outcome (Z * BitReader) :=
  if bits =? 0 then Ok (0, r) else read_loop r bits 0.

(** [BitReader.read_bool] *)
Definition read_bool (r : BitReader) : outcome (bool * BitReader) :=
  '(v, r) ← read 1 r; Ok (v =? 1, r).

(** [BitReader.read_zigzag] *)
Definition read_zigzag (bits : Z) (r : BitReader) : outcome (Z * BitReader) :=
  '(n, r) ← read bits r;
  Ok (Z.lxor (Z.shiftr n 1) (- Z.land n 1), r).

(** ** Python helpers used by the decoder *)

(** [for i in range(n): body] over a loop state; [for_loop] counts the
    iterations left. *)
Fixpoint for_loop {S} (k : nat) (i : Z) (body : Z -> S -> outcome S) (s : S) : outcome S :=
  match k with
  | O => Ok s
  | S k' => s' ← body i s; for_loop k' (i + 1) body s'
  end.

Definition for_range {S} (n : Z) (body : Z -> S -> outcome S) (s : S) : outcome S :=
  for_loop (Z.to_nat n) 0 body s.

(** [not bs] for a sequence. *)
Definition is_empty {A} (l : list A) : bool :=
  match l with
  | [] => true
  | _ :: _ => false
  end.

(** [f.read(n)] on a binary stream: the bytes read (fewer than [n] at the end
    of the stream, all of them for a negative [n]) and the rest of the stream. *)
Definition f_read (n : Z) (f : list byte) : list byte * list byte :=
  if n <? 0 then (f, []) else (take (Z.to_nat n) f, drop (Z.to_nat n) f).

(** The big-endian unsigned integer held by a byte string. *)
Definition be_uint (bs : list byte) : Z :=
  fold_left (fun acc b => acc * 256 + byte_val b) bs 0.

(** [struct.unpack(">I", bs)[0]], [struct.unpack(">H", bs)[0]] and
    [struct.unpack(">II", bs)]: [struct.error] unless the buffer has exactly
    the size of the format. *)
Definition unpack_I (bs : list byte) : outcome Z :=
  if len bs =? 4 then Ok (be_uint bs) else Raise StructError.

Definition unpack_H (bs : list byte) : outcome Z :=
  if len bs =? 2 then Ok (be_uint bs) else Raise StructError.

Definition unpack_II (bs : list byte) : outcome (Z * Z) :=
  if len bs =? 8 then Ok (be_uint (take 4 bs), be_uint (drop 4 bs))
  else Raise StructError.

(** [ord(bs)] on a [bytes] object: [TypeError] unless it has length 1. *)
Definition ord (bs : list byte) : outcome Z :=
  match bs with
  | [b] => Ok (byte_val b)
  | _ => Raise TypeError
  end.

(** [str(n)], as an f-string formats an integer. *)
Definition str_of_int (n : Z) : string := NilZero.string_of_int (Z.to_int n).

(** [int.bit_length]: the number of binary digits of the absolute value. *)
Definition bit_length (n : Z) : Z :=
  match n with
  | Z0 => 0
  | Zpos p | Zneg p => Z.of_nat (Pos.size_nat p)
  end.

(** [get_facing_str] *)
Definition get_facing_str (facing_id : Z) : option string :=
  match facing_id with
  | 0 => Some "down"
  | 1 => Some "up"
  | 2 => Some "north"
  | 3 => Some "south"
  | 4 => Some "west"
  | 5 => Some "east"
  | _ => None
  end%string.

(** ** [CISDecoder] *)

(** The dictionaries appended to [blocks] and the one [decode_chunk] returns. *)
Record BlockChange := mkBlockChange {
  x : Z;
  y : Z;
  z : Z;
  state : string
}.

Record ChunkRecord := mkChunkRecord {
  version : Z;
  palette : list string;
  blocks : list BlockChange;
  be_count : Z
}.

(** Lines 118-122: resolving the local id to a state string. *)
Definition resolve_state (local_to_global : list Z) (global_palette : list string)
    (lid : Z) : outcome string :=
  gid ← getitem local_to_global lid;
  if gid <? len global_palette then getitem global_palette gid
  else Ok "INVALID"%string.

(** Lines 107-124: one iteration of the block loop of [decode_micro_cube],
    over the loop state (reader, (last_ly, last_lxz, last_lid), blocks). *)
Definition decode_block (global_palette : list string) (sy palette_size bits_per_id : Z)
    (local_to_global : list Z) (st : BitReader * (Z * Z * Z) * list BlockChange)
    : outcome (BitReader * (Z * Z * Z) * list BlockChange) :=
  let '(reader, (last_ly, last_lxz, last_lid), blocks) := st in
  '(flag, reader) ← read_bool reader;
  '(dy, reader) ← (if flag : bool then read_zigzag 6 reader else Ok (0, reader));
  '(flag, reader) ← read_bool reader;
  '(lxz, reader) ← (if flag : bool then read 8 reader else Ok (last_lxz, reader));
  '(lid, reader) ←
    (if palette_size >? 1 then
       '(flag, reader) ← read_bool reader;
       if flag : bool then read bits_per_id reader else Ok (last_lid, reader)
     else Ok (last_lid, reader));
  let ly := last_ly + dy in
  let bx := Z.land lxz 15 in
  let bz := Z.shiftr lxz 4 in
  st ← resolve_state local_to_global global_palette lid;
  Ok (reader, (ly, lxz, lid),
      blocks ++ [mkBlockChange bx (Z.shiftl sy 4 + ly) bz st]).

(** Line 102: the width of a local id. *)
Definition bits_per_id_of (palette_size : Z) : Z :=
  if palette_size >? 1 then bit_length (palette_size - 1) else 0.

(** [CISDecoder.decode_micro_cube]; the reader is shared with the caller, so
    its final state is returned with the blocks. *)
Definition decode_micro_cube (reader : BitReader) (global_palette : list string)
    (mx my mz sy : Z) : outcome (list BlockChange * BitReader) :=
  '(palette_size, reader) ← read 8 reader;
  if palette_size =? 0 then Ok ([], reader)
  else
    '(reader, local_to_global) ←
      for_range palette_size (fun _ '(reader, acc) =>
        '(gid, reader) ← read 16 reader; Ok (reader, acc ++ [gid])) (reader, []);
    '(block_count, reader) ← read 7 reader;
    let bits_per_id := bits_per_id_of palette_size in
    '(reader, _, blocks) ←
      for_range block_count
        (fun _ => decode_block global_palette sy palette_size bits_per_id local_to_global)
        (reader, (0, 0, 0), []);
    Ok (blocks, reader).

(** Lines 59-66: one iteration of the global palette loop, over the loop
    state (stream, global_palette). *)
Definition read_palette_entry (mapping : gmap Z string)
    (st : list byte * list string) : outcome (list byte * list string) :=
  let '(f, global_palette) := st in
  let '(bs, f) := f_read 2 f in
  mapping_id ← unpack_H bs;
  let '(bs, f) := f_read 1 f in
  facing_data ← ord bs;
  let base_name := default ("unknown_" +:+ str_of_int mapping_id) (mapping !! mapping_id) in
  let facing_str := get_facing_str facing_data in
  let full_name :=
    base_name +:+ match facing_str with
                  | Some d => "[facing=" +:+ d +:+ "]"
                  | None => ""
                  end in
  Ok (f, global_palette ++ [full_name]).

(** [decode_chunk] calls the micro-cube decoder as a method,
    [self.decode_micro_cube(reader, global_palette, mx, my, mz, sy)]: its
    loops are written over the method they call, which gets the shared
    reader, the global palette and the coordinates, and returns the blocks
    with the reader as it leaves it. *)
Definition micro_cube_decoder : Type :=
  BitReader -> list string -> Z -> Z -> Z -> Z -> outcome (list BlockChange * BitReader).

(** Lines 82-87: one iteration of the section loop, over the loop state
    (reader, all_blocks). *)
Definition decode_section_with (cube : micro_cube_decoder) (global_palette : list string)
    (st : BitReader * list BlockChange) : outcome (BitReader * list BlockChange) :=
  let '(reader, all_blocks) := st in
  '(sy, reader) ← read_zigzag 16 reader;
  for_range 4 (fun my =>
    for_range 4 (fun mz =>
      for_range 4 (fun mx '(reader, all_blocks) =>
        '(res, reader) ← cube reader global_palette mx my mz sy;
        Ok (reader, all_blocks ++ res))))
    (reader, all_blocks).

(** Lines 77-87: decoding the instruction stream into the block list. *)
Definition decode_instructions_with (cube : micro_cube_decoder)
    (global_palette : list string) (inst_data : list byte) : outcome (list BlockChange) :=
  let reader := new_reader inst_data in
  '(section_count, reader) ← read 16 reader;
  '(_, all_blocks) ←
    for_range section_count (fun _ => decode_section_with cube global_palette) (reader, []);
  Ok all_blocks.

(** Lines 48-94, over the method called at line 86: [Ok None] is Python's
    [return None]. *)
Definition decode_chunk_with (cube : micro_cube_decoder) (mapping : gmap Z string)
    (f : list byte) : outcome (option ChunkRecord) :=
  let '(magic_bytes, f) := f_read 4 f in
  if is_empty magic_bytes then Ok None
  else
    magic ← unpack_I magic_bytes;
    if negb (magic =? 0x43495334) then Ok None
    else
      let '(bs, f) := f_read 4 f in
      version ← unpack_I bs;
      let '(bs, f) := f_read 4 f in
      palette_size ← unpack_I bs;
      '(f, global_palette) ←
        for_range palette_size (fun _ => read_palette_entry mapping) (f, []);
      let '(bs, f) := f_read 4 f in
      inst_len ← unpack_I bs;
      let '(inst_data, f) := f_read inst_len f in
      let '(be_count_data, f) := f_read 4 f in
      be_count ← (if is_empty be_count_data then Ok 0
                  else unpack_I be_count_data);
      all_blocks ← decode_instructions_with cube global_palette inst_data;
      Ok (Some (mkChunkRecord version global_palette all_blocks be_count)).

(** [CISDecoder.decode_chunk] and its two loops, with the method of the
    class, [CISDecoder.decode_micro_cube]. *)
Definition decode_section : list string -> BitReader * list BlockChange ->
    outcome (BitReader * list BlockChange) :=
  decode_section_with decode_micro_cube.

Definition decode_instructions : list string -> list byte -> outcome (list BlockChange) :=
  decode_instructions_with decode_micro_cube.

Definition decode_chunk : gmap Z string -> list byte -> outcome (option ChunkRecord) :=
  decode_chunk_with decode_micro_cube.

(** ** [CISVisualizer.parse_region] *)

(** [header[a:b]] for non-negative bounds. *)
Definition slice {A} (l : list A) (a b : Z) : list A :=
  take (Z.to_nat (b - a)) (drop (Z.to_nat a) l).

(** Lines 237-250: one iteration of the region loop.  [file] is the content
    of the open region file, [decompress] stands for [zlib.decompress]
    ([None] when it raises); the bare [except] swallows every exception of
    the [try] block.  The list is [self.chunks]; the tree view is not
    modelled. *)
Definition parse_slot (decompress : list byte -> option (list byte))
    (mapping : gmap Z string) (file header : list byte) (i : Z)
    (chunks : list (Z * Z * ChunkRecord)) : outcome (list (Z * Z * ChunkRecord)) :=
  '(off, length) ← unpack_II (slice header (i * 8) (i * 8 + 8));
  if (off >? 0) && (length >? 0) then
    let '(data, _) := f_read length (drop (Z.to_nat off) file) in
    match decompress data with
    | None => Ok chunks
    | Some decompressed =>
        match decode_chunk mapping decompressed with
        | Ok (Some chunk_data) =>
            let '(lx, lz) := (i `mod` 16, i `div` 16) in
            Ok (chunks ++ [(lx, lz, chunk_data)])
        | Ok None => Ok chunks
        | Raise _ => Ok chunks
        end
    end
  else Ok chunks.

(** [CISVisualizer.parse_region] *)
Definition parse_region (decompress : list byte -> option (list byte))
    (mapping : gmap Z string) (file header : list byte)
    : outcome (list (Z * Z * ChunkRecord)) :=
  for_range 256 (parse_slot decompress mapping file header) [].

(** ** Vocabulary of the statements *)

(** The cursor invariant and the absolute bit position of a reader. *)
Definition cursor_ok (r : BitReader) : Prop :=
  0 <= byte_index r /\ 0 <= bit_index r < 8.

Definition bitpos (r : BitReader) : Z := byte_index r * 8 + bit_index r.

(** The readers a program can hold over the buffer [d]: a fresh one, and any
    reader left by a [read] on a reachable one. *)
Inductive reachable (d : list byte) : BitReader -> Prop :=
| reach_new : reachable d (new_reader d)
| reach_read r bits v r' :
    reachable d r -> read bits r = Ok (v, r') -> reachable d r'.

(** The cursor update of lines 27-31, and the bits taken from byte [b0]
    (line 25). *)
Definition advance (r : BitReader) (take : Z) : BitReader :=
  if bit_index r + take =? 8 then mkBitReader (data r) (byte_index r + 1) 0
  else mkBitReader (data r) (byte_index r) (bit_index r + take).

Definition chunk_of (b0 : byte) (bit take : Z) : Z :=
  Z.land (Z.shiftr (Z.land (byte_val b0) 255) (8 - bit - take)) (Z.shiftl 1 take - 1).

(** The bit at absolute position [p] of a buffer, most significant bit of a
    byte first. *)
Definition bit_at (d : list byte) (p : Z) : bool :=
  match d !! Z.to_nat (p `div` 8) with
  | Some b => Z.testbit (byte_val b) (7 - p `mod` 8)
  | None => false
  end.

(** The position after the y field and the xz field of a block record that
    starts at position [p]: a flag bit and, when it is set, 6 bits; then a
    flag bit and, when it is set, 8 bits.  No bit of an id field. *)
Definition skip_y_xz (d : list byte) (p : Z) : Z :=
  let p1 := p + 1 + (if bit_at d p then 6 else 0) in
  p1 + 1 + (if bit_at d p1 then 8 else 0).

(** [range(i, i + k)] *)
Fixpoint range_from (i : Z) (k : nat) : list Z :=
  match k with
  | O => []
  | S k' => i :: range_from (i + 1) k'
  end.

(** The micro-cube coordinates (mx, my, mz) of a section in the order the
    specification gives: major-Y outermost, then major-Z, then major-X. *)
Definition cube_order : list (Z * Z * Z) :=
  flat_map (fun my =>
    flat_map (fun mz =>
      flat_map (fun mx => [(mx, my, mz)]) (range_from 0 4))
      (range_from 0 4))
    (range_from 0 4).

(** The micro-cube decoder [cube] invoked once per coordinate of [cubes], in
    list order and with that coordinate, on the shared reader; the block
    lists it returns, call by call. *)
Fixpoint cube_calls_with (cube : micro_cube_decoder) (gp : list string) (sy : Z)
    (cubes : list (Z * Z * Z)) (reader : BitReader)
    : outcome (list (list BlockChange) * BitReader) :=
  match cubes with
  | [] => Ok ([], reader)
  | (mx, my, mz) :: rest =>
      '(res, reader) ← cube reader gp mx my mz sy;
      '(ress, reader) ← cube_calls_with cube gp sy rest reader;
      Ok (res :: ress, reader)
  end.

(** [n] sections in a row: for each one a 16-bit zigzag [section_y], then
    the micro-cube calls of [cube_order]; the block lists returned, section
    by section and call by call. *)
Fixpoint section_calls_with (cube : micro_cube_decoder) (gp : list string) (n : nat)
    (reader : BitReader) : outcome (list (list (list BlockChange)) * BitReader) :=
  match n with
  | O => Ok ([], reader)
  | S n' =>
      '(sy, reader) ← read_zigzag 16 reader;
      '(ress, reader) ← cube_calls_with cube gp sy cube_order reader;
      '(secs, reader) ← section_calls_with cube gp n' reader;
      Ok (ress :: secs, reader)
  end.

(** The calls made to [CISDecoder.decode_micro_cube]. *)
Definition cube_calls : list string -> Z -> list (Z * Z * Z) -> BitReader ->
    outcome (list (list BlockChange) * BitReader) :=
  cube_calls_with decode_micro_cube.

Definition section_calls : list string -> nat -> BitReader ->
    outcome (list (list (list BlockChange)) * BitReader) :=
  section_calls_with decode_micro_cube.

(** The magic of a chunk payload, [0x43495334] ("CIS4"). *)
Definition cis4 : list byte := [x43; x49; x53; x34].

(** The chunk payloads that end inside a fixed-width header field, with the
    exception that unpacking the field raises: 1 to 3 bytes of magic; a
    valid magic and fewer than 4 bytes of version; fewer than 4 bytes of
    palette size; [k] whole palette entries out of more, then fewer than the
    2 bytes of a mapping id, or the mapping id without its facing byte; the
    whole palette and fewer than 4 bytes of instruction length; the whole
    instruction stream and 1 to 3 bytes of block entity count. *)
Inductive truncated_header : list byte -> exn -> Prop :=
| trunc_magic s :
    (0 < length s < 4)%nat -> truncated_header s StructError
| trunc_version s :
    (length s < 4)%nat -> truncated_header (cis4 ++ s) StructError
| trunc_palette_size ver s :
    length ver = 4%nat -> (length s < 4)%nat ->
    truncated_header (cis4 ++ ver ++ s) StructError
| trunc_mapping_id ver psz (k : nat) entries s :
    length ver = 4%nat -> length psz = 4%nat ->
    length entries = (3 * k)%nat -> (k < Z.to_nat (be_uint psz))%nat ->
    (length s < 2)%nat ->
    truncated_header (cis4 ++ ver ++ psz ++ entries ++ s) StructError
| trunc_facing ver psz (k : nat) entries s :
    length ver = 4%nat -> length psz = 4%nat ->
    length entries = (3 * k)%nat -> (k < Z.to_nat (be_uint psz))%nat ->
    length s = 2%nat ->
    truncated_header (cis4 ++ ver ++ psz ++ entries ++ s) TypeError
| trunc_inst_len ver psz entries s :
    length ver = 4%nat -> length psz = 4%nat ->
    length entries = (3 * Z.to_nat (be_uint psz))%nat ->
    (length s < 4)%nat ->
    truncated_header (cis4 ++ ver ++ psz ++ entries ++ s) StructError
| trunc_be_count ver psz entries ilen inst s :
    length ver = 4%nat -> length psz = 4%nat ->
    length entries = (3 * Z.to_nat (be_uint psz))%nat ->
    length ilen = 4%nat -> len inst = be_uint ilen ->
    (0 < length s < 4)%nat ->
    truncated_header (cis4 ++ ver ++ psz ++ entries ++ ilen ++ inst ++ s) StructError.


(** A loop body that calls the micro-cube decoder on the coordinates [cubes]
    in order and appends what each call returns to [all_blocks]. *)
Definition collects (cube : micro_cube_decoder) (gp : list string) (sy : Z)
    (cubes : list (Z * Z * Z))
    (inner : BitReader * list BlockChange -> outcome (BitReader * list BlockChange)) : Prop :=
  forall r all,
    inner (r, all) =
    '(ress, r') ← cube_calls_with cube gp sy cubes r; Ok (r', all ++ concat ress).

(** The display string of a global palette entry (lines 63-65). *)
Definition palette_name (mapping : gmap Z string) (mapping_id facing_data : Z) : string :=
  default ("unknown_" +:+ str_of_int mapping_id) (mapping !! mapping_id)
  +:+ match get_facing_str facing_data with
      | Some d => "[facing=" +:+ d +:+ "]"
      | None => ""
      end.

(** The offset-table entry [i] of a region header, the bytes it designates
    in the file, and what slot [i] contributes to the chunk list on its own:
    its chunk when the entry is used and the bytes decompress and decode to
    a chunk, nothing otherwise. *)
Definition slot_entry (header : list byte) (i : Z) : Z * Z :=
  let bs := slice header (i * 8) (i * 8 + 8) in
  (be_uint (take 4 bs), be_uint (drop 4 bs)).

Definition slot_bytes (file header : list byte) (i : Z) : list byte :=
  let '(off, length) := slot_entry header i in
  take (Z.to_nat length) (drop (Z.to_nat off) file).

Definition slot_chunks (decompress : list byte -> option (list byte))
    (mapping : gmap Z string) (file header : list byte) (i : Z)
    : list (Z * Z * ChunkRecord) :=
  let '(off, length) := slot_entry header i in
  if (off >? 0) && (length >? 0) then
    match decompress (slot_bytes file header i) with
    | Some decompressed =>
        match decode_chunk mapping decompressed with
        | Ok (Some chunk_data) => [(i `mod` 16, i `div` 16, chunk_data)]
        | _ => []
        end
    | None => []
    end
  else [].

(** ** The rest of [CISVisualizer] *)

(** [CISVisualizer.load_mapping], line 198: the dictionary comprehension
    [{v: k for k, v in raw.items()}] over the items of the loaded JSON
    object, in their order; a later item replaces an earlier one with the
    same id. *)
Definition flip_mapping (raw : list (string * Z)) : gmap Z string :=
  foldl (fun m '(k, v) => <[v := k]> m) ∅ raw.

(** [CISVisualizer.parse_single_chunk]: [raw] is what [f.read()] returns; a
    failed decompression keeps the raw bytes; an exception of [decode_chunk]
    is not caught here.  The list is [self.chunks]. *)
Definition parse_single_chunk (decompress : list byte -> option (list byte))
    (mapping : gmap Z string) (raw : list byte)
    (chunks : list (Z * Z * ChunkRecord)) : outcome (list (Z * Z * ChunkRecord)) :=
  let raw := match decompress raw with
             | Some decompressed => decompressed
             | None => raw
             end in
  chunk_data ← decode_chunk mapping raw;
  match chunk_data with
  | Some chunk_data => Ok (chunks ++ [(0, 0, chunk_data)])
  | None => Ok chunks
  end.

(** [CISVisualizer.load_file].  [chunks] is [self.chunks] when the method
    is called and [file] the content of the file chosen in the dialog,
    [None] when no path is chosen; the result is [self.chunks] when the
    method is done.  Lines 204-206: without a mapping ([not
    self.mapping_data], an empty dictionary) the method warns and returns;
    line 209: it also returns when no path is chosen; both before anything is
    read or cleared.  Lines 212 and 225-231: otherwise the chunk list is
    cleared and the first 2048 bytes decide between a single chunk and a
    region.  [Raise e] is the exception that line 232 catches and shows in
    the error dialog. *)
Definition load_file (decompress : list byte -> option (list byte))
    (mapping : gmap Z string) (file : option (list byte))
    (chunks : list (Z * Z * ChunkRecord)) : outcome (list (Z * Z * ChunkRecord)) :=
  if bool_decide (mapping = ∅) then Ok chunks
  else
    match file with
    | None => Ok chunks
    | Some file =>
        let chunks := [] in
        let '(header, _) := f_read 2048 file in
        if len header <? 2048 then parse_single_chunk decompress mapping file chunks
        else parse_region decompress mapping file header
    end.

(** [CISVisualizer.on_chunk_select], lines 267-271: the world position shown
    for block [b] of the chunk at [local_pos] of the region at [region_pos]. *)
Definition world_position (region_pos local_pos : Z * Z) (b : BlockChange) : Z * Z * Z :=
  let wchunk_x := region_pos.1 * 16 + local_pos.1 in
  let wchunk_z := region_pos.2 * 16 + local_pos.2 in
  let '(abs_x, abs_z) := (wchunk_x * 16 + x b, wchunk_z * 16 + z b) in
  (abs_x, y b, abs_z).

(** ** Vocabulary of the further statements *)

(** What every decoded block satisfies, within a micro-cube of section
    [sy] and within a chunk. *)
Definition cube_block_ok (gp : list string) (sy : Z) (b : BlockChange) : Prop :=
  0 <= x b < 16 /\ 0 <= z b < 16 /\
  -4064 <= y b - sy * 16 <= 3937 /\
  (state b = "INVALID"%string \/ state b ∈ gp).

Definition block_ok (gp : list string) (b : BlockChange) : Prop :=
  0 <= x b < 16 /\ 0 <= z b < 16 /\
  -528352 <= y b <= 528209 /\
  (state b = "INVALID"%string \/ state b ∈ gp).

(** The local ids a block record can select all lie in the local palette:
    the running id does, and so does every [bpi]-bit id when ids are read. *)
Definition ids_fit (ps bpi : Z) (l2g : list Z) (lid : Z) : Prop :=
  lid < len l2g /\ (1 < ps -> 2 ^ bpi <= len l2g).

(** The slot index [local_x + local_z * 16] of an entry of the chunk list,
    and what every entry of a region's chunk list satisfies. *)
Definition slot_index (e : Z * Z * ChunkRecord) : Z :=
  let '(lx, lz, _) := e in lx + lz * 16.

Definition chunk_entry_ok (e : Z * Z * ChunkRecord) : Prop :=
  let '(lx, lz, c) := e in
  0 <= lx < 16 /\ 0 <= lz < 16 /\ Forall (block_ok (palette c)) (blocks c).

(** The display strings of the 3-byte entries of a global palette. *)
Fixpoint entry_names (mapping : gmap Z string) (entries : list byte) : list string :=
  match entries with
  | a :: b :: c :: rest =>
      palette_name mapping (be_uint [a; b]) (byte_val c) :: entry_names mapping rest
  | _ => []
  end.

(** The reader over the buffer [d] whose cursor is at bit position [p]. *)
Definition reader_at (d : list byte) (p : Z) : BitReader :=
  mkBitReader d (p `div` 8) (p `mod` 8).

(** The [k]-bit field at position [p] of a buffer, as an unsigned number,
    most significant bit first; and the signed number a zigzag field
    stands for. *)
Fixpoint field_at (d : list byte) (p : Z) (k : nat) : Z :=
  match k with
  | O => 0
  | S k' => 2 * field_at d p k' + Z.b2z (bit_at d (p + Z.of_nat k'))
  end.

Definition unzigzag (u : Z) : Z :=
  if Z.even u then u `div` 2 else - (u `div` 2) - 1.

(** The layout of a block record at position [p], in a micro-cube with a
    local palette of [ps] entries and local ids of [w] bits: the y field and
    the xz field of [skip_y_xz] and, only when [ps > 1], an id field: a flag
    bit and, when it is set, [w] bits.  [record_end] is the position after
    the record; [record_fields] gives the running (y, xz, local id) after
    the record from the ones before it: a field whose flag is clear keeps
    the xz and the local id, and adds 0 to y. *)
Definition record_end (d : list byte) (ps w : Z) (p : Z) : Z :=
  let p2 := skip_y_xz d p in
  if ps >? 1 then p2 + 1 + (if bit_at d p2 then w else 0) else p2.

Definition record_fields (d : list byte) (ps w : Z) (p : Z) (last : Z * Z * Z)
    : Z * Z * Z :=
  let '(last_ly, last_lxz, last_lid) := last in
  let dy := if bit_at d p then unzigzag (field_at d (p + 1) 6) else 0 in
  let p1 := p + 1 + (if bit_at d p then 6 else 0) in
  let lxz := if bit_at d p1 then field_at d (p1 + 1) 8 else last_lxz in
  let p2 := skip_y_xz d p in
  let lid := if (ps >? 1) && bit_at d p2 then field_at d (p2 + 1) (Z.to_nat w)
             else last_lid in
  (last_ly + dy, lxz, lid).

(** The blocks of [k] consecutive block records from position [p], over the
    local palette [l2g]: each record resolves its local id, and the first
    one that cannot ends the decoding with its exception. *)
Fixpoint block_records (gp : list string) (sy : Z) (l2g : list Z) (d : list byte)
    (ps w : Z) (k : nat) (p : Z) (last : Z * Z * Z) : outcome (list BlockChange) :=
  match k with
  | O => Ok []
  | S k' =>
      let '(ly, lxz, lid) := record_fields d ps w p last in
      st ← resolve_state l2g gp lid;
      rest ← block_records gp sy l2g d ps w k' (record_end d ps w p) (ly, lxz, lid);
      Ok (mkBlockChange (Z.land lxz 15) (Z.shiftl sy 4 + ly) (Z.shiftr lxz 4) st :: rest)
  end.

(** The [k] 16-bit entries of a local palette that starts at position [p]. *)
Fixpoint local_palette_at (d : list byte) (p : Z) (k : nat) : list Z :=
  match k with
  | O => []
  | S k' => field_at d p 16 :: local_palette_at d (p + 16) k'
  end.

(** A micro-cube decoder that reads nothing and returns one block holding
    the coordinates it is called with. *)
Definition coordinates_probe : micro_cube_decoder :=
  fun reader _ mx my mz _ => Ok ([mkBlockChange mx my mz ""], reader).

(** ** Example inputs *)

(** The chunk of the specification's example: one section with
    [section_y = 0] whose first micro-cube holds one block at (3, 5, 7) of
    global id 0, mapping id 42 facing north. *)
Definition example_payload : list byte :=
  [x43; x49; x53; x34; x00; x00; x00; x01; x00; x00; x00; x01; x00; x2a; x02;
   x00; x00; x00; x0a;
   x00; x01; x00; x00; x01; x00; x00; x03; x2a; xe6;
   x00; x00; x00; x07].

Definition example_chunk : ChunkRecord :=
  mkChunkRecord 1 ["stone_stairs[facing=north]"%string]
    [mkBlockChange 3 5 7 "stone_stairs[facing=north]"] 7.

(** A payload with the magic "CIS3" in front of an otherwise valid chunk. *)
Definition wrong_magic_payload : list byte :=
  [x43; x49; x53; x33; x00; x00; x00; x01; x00; x00; x00; x00;
   x00; x00; x00; x02; x00; x00; x00; x00; x00; x00].

(** A chunk whose first micro-cube has a local palette of 3 entries (so
    2-bit local ids) and one block record that selects local id 3. *)
Definition local_id_payload : list byte :=
  [x43; x49; x53; x34; x00; x00; x00; x01; x00; x00; x00; x01; x00; x2a; x02;
   x00; x00; x00; x0d;
   x00; x01; x00; x00; x03; x00; x00; x00; x00; x00; x00; x02; x70;
   x00; x00; x00; x00].

(** A toy stand-in for [zlib.decompress], for the examples: the payload is
    stored after a one-byte [0x78] header; anything else is refused. *)
Definition stored_decompress (bs : list byte) : option (list byte) :=
  match bs with
  | x78 :: rest => Some rest
  | _ => None
  end.

(** A region with two used slots, both holding the example chunk, and the
    same region with the first byte of slot 0 corrupted. *)
Definition region_header : list byte :=
  [x00; x00; x08; x00; x00; x00; x00; x22;
   x00; x00; x08; x22; x00; x00; x00; x22] ++ replicate 2032 x00.

Definition region_file : list byte :=
  region_header ++ (x78 :: example_payload) ++ (x78 :: example_payload).

Definition corrupt_region_file : list byte :=
  region_header ++ (xff :: example_payload) ++ (x78 :: example_payload).

(** A chunk with an empty global palette and an instruction stream of one
    section with [section_y = 0] and nothing else. *)
Definition one_section_payload : list byte :=
  cis4 ++ [x00; x00; x00; x01] ++ [x00; x00; x00; x00] ++ []
       ++ [x00; x00; x00; x04] ++ [x00; x01; x00; x00].

(** A micro-cube with the local palette [0; 0; 1] (so 2-bit local ids) and
    two block records: the first selects local id 2, the second has no flag
    set. *)
Definition three_entry_cube : list byte :=
  [x03; x00; x00; x00; x00; x00; x01; x04; x60].

(** * Properties *)

(** Running the error monad one step, without unfolding the decoders. *)
Ltac run := cbn [mbind outcome_bind].

(** The loop, unfolded once. *)
Lemma read_loop_eq r bits result :
  read_loop r bits result =
  if bits >? 0 then
    match read_body r bits result with
    | Ok (Return v) => Ok (v, r)
    | Ok (Continue r' bits' result') => read_loop r' bits' result'
    | Raise e => Raise e
    end
  else Ok (result, r).
Proof.
  funelim (read_loop r bits result).
  all: try (destruct (Z.gtb_spec bits 0); [lia|]; reflexivity).
  all: destruct (Z.gtb_spec bits 0); [|lia].
  all: match goal with E : read_body _ _ _ = _ |- _ => rewrite E end; reflexivity.
Qed.

(** Twelve bits across a byte boundary, most significant bit first; and a
    read of twelve bits when six are left. *)
Example read_across_bytes :
  read 12 (new_reader [xab; xcd]) = Ok (0xabc, mkBitReader [xab; xcd] 1 4).
Proof. vm_compute. reflexivity. Qed.

Example read_past_the_end :
  read 12 (mkBitReader [xab; xcd] 1 2) = Ok (0x340, mkBitReader [xab; xcd] 2 0).
Proof. vm_compute. reflexivity. Qed.

(** ** The reader *)

Lemma read_body_out r bits result :
  len (data r) <= byte_index r ->
  read_body r bits result = Ok (Return (Z.shiftl result bits)).
Proof.
  intros H. unfold read_body.
  destruct (Z.geb_spec (byte_index r) (len (data r))); [reflexivity | lia].
Qed.

Lemma getitem_lookup {A} (l : list A) i a :
  0 <= i -> l !! Z.to_nat i = Some a -> getitem l i = Ok a.
Proof.
  intros Hi Hl. unfold getitem.
  destruct (Z.ltb_spec i 0); [lia|].
  destruct (Z.ltb_spec i 0); [lia|].
  now rewrite Hl.
Qed.

Lemma lookup_in_range {A} (l : list A) i :
  0 <= i < len l -> exists a, l !! Z.to_nat i = Some a.
Proof.
  intros Hi. apply lookup_lt_is_Some_2. unfold len in Hi. lia.
Qed.

Lemma read_body_in r bits result b0 :
  cursor_ok r -> 0 < bits ->
  data r !! Z.to_nat (byte_index r) = Some b0 ->
  let take := Z.min (8 - bit_index r) bits in
  read_body r bits result =
  Ok (Continue (advance r take) (bits - take)
        (Z.lor (Z.shiftl result take) (chunk_of b0 (bit_index r) take))).
Proof.
  intros [Hb Hbit] Hpos Hl take. unfold read_body.
  assert (Hlt : byte_index r < len (data r)).
  { apply lookup_lt_Some in Hl. unfold len. lia. }
  destruct (Z.geb_spec (byte_index r) (len (data r))); [lia|].
  rewrite (getitem_lookup _ _ _ Hb Hl). simpl.
  fold take. destruct (Z.ltb_spec take 0); [lia|].
  unfold advance, chunk_of. fold take.
  destruct (bit_index r + take =? 8); reflexivity.
Qed.

Lemma advance_ok r take :
  cursor_ok r -> 0 < take <= 8 - bit_index r ->
  cursor_ok (advance r take) /\ data (advance r take) = data r /\
  bitpos (advance r take) = bitpos r + take.
Proof.
  intros [Hb Hbit] Ht. unfold advance, cursor_ok, bitpos.
  destruct (Z.eqb_spec (bit_index r + take) 8); simpl; repeat split; lia.
Qed.

(** Induction over the iterations of the loop of [read], from a cursor that
    satisfies the invariant. *)
Lemma read_loop_ind_ok (P : BitReader -> Z -> Z -> outcome (Z * BitReader) -> Prop) :
  (forall r bits result, cursor_ok r -> bits <= 0 -> P r bits result (Ok (result, r))) ->
  (forall r bits result, cursor_ok r -> 0 < bits -> len (data r) <= byte_index r ->
     P r bits result (Ok (Z.shiftl result bits, r))) ->
  (forall r bits result b0, cursor_ok r -> 0 < bits ->
     data r !! Z.to_nat (byte_index r) = Some b0 ->
     let take := Z.min (8 - bit_index r) bits in
     let r' := advance r take in
     let result' := Z.lor (Z.shiftl result take) (chunk_of b0 (bit_index r) take) in
     0 < take <= bits -> take <= 8 - bit_index r -> cursor_ok r' ->
     P r' (bits - take) result' (read_loop r' (bits - take) result') ->
     P r bits result (read_loop r' (bits - take) result')) ->
  forall r bits result, cursor_ok r -> P r bits result (read_loop r bits result).
Proof.
  intros Hdone Hend Hstep r bits.
  remember (Z.to_nat bits) as n eqn:Hn.
  revert r bits Hn. induction n as [n IH] using lt_wf_ind.
  intros r bits Hn result Hok. rewrite read_loop_eq.
  destruct (Z.gtb_spec bits 0) as [Hpos|Hle]; [|now apply Hdone].
  destruct (Z_le_gt_dec (len (data r)) (byte_index r)) as [Hout|Hin].
  - rewrite read_body_out by assumption. now apply Hend.
  - destruct (lookup_in_range (data r) (byte_index r)) as [b0 Hb0];
      [destruct Hok; lia|].
    rewrite (read_body_in _ _ _ _ Hok Hpos Hb0).
    assert (Ht : 0 < Z.min (8 - bit_index r) bits <= bits) by (destruct Hok; lia).
    assert (Ht' : Z.min (8 - bit_index r) bits <= 8 - bit_index r) by lia.
    apply Hstep; try assumption.
    + apply advance_ok; [assumption | lia].
    + eapply IH; [|reflexivity|apply advance_ok; [assumption | lia]]. lia.
Qed.

(** Arithmetic of one loop iteration. *)
Lemma chunk_of_bound b0 bit take :
  0 <= take -> 0 <= chunk_of b0 bit take < 2 ^ take.
Proof.
  intros Ht. unfold chunk_of.
  rewrite Z.shiftl_1_l.
  replace (2 ^ take - 1) with (Z.ones take) by (rewrite Z.ones_equiv; lia).
  rewrite Z.land_ones by assumption.
  apply Z.mod_pos_bound. apply Z.pow_pos_nonneg; lia.
Qed.

Lemma lor_shiftl_add a t c :
  0 <= t -> 0 <= c < 2 ^ t -> Z.lor (Z.shiftl a t) c = a * 2 ^ t + c.
Proof.
  intros Ht Hc. rewrite Z.shiftl_mul_pow2 by assumption.
  assert (Hland : Z.land (a * 2 ^ t) c = 0).
  { apply Z.bits_inj'; intros n Hn. rewrite Z.land_spec, Z.bits_0.
    destruct (Z_lt_le_dec n t) as [Hlt|Hge].
    - rewrite Z.mul_pow2_bits_low by lia. reflexivity.
    - rewrite <- (Z.mod_small c (2 ^ t)) by lia.
      rewrite Z.mod_pow2_bits_high by lia. apply andb_false_r. }
  rewrite <- Z.lxor_lor by assumption.
  symmetry. now apply Z.add_nocarry_lxor.
Qed.

Lemma accumulate_bound result k b0 bit take :
  0 <= k -> 0 <= take -> 0 <= result < 2 ^ k ->
  0 <= Z.lor (Z.shiftl result take) (chunk_of b0 bit take) < 2 ^ (k + take).
Proof.
  intros Hk Ht Hr. pose proof (chunk_of_bound b0 bit take Ht) as Hc.
  rewrite lor_shiftl_add by assumption.
  rewrite Z.pow_add_r by assumption.
  assert (0 < 2 ^ take) by (apply Z.pow_pos_nonneg; lia).
  nia.
Qed.

(** What a [read] loop guarantees from a cursor satisfying the invariant: it
    returns, the cursor still satisfies the invariant over the same buffer
    and has not moved backward nor further than [bits], it has moved by
    exactly [bits] when that many bits were left, and the accumulator grew
    by [bits] binary digits. *)
Lemma read_loop_ok r bits result k :
  cursor_ok r -> 0 <= bits -> 0 <= k -> 0 <= result < 2 ^ k ->
  exists v r', read_loop r bits result = Ok (v, r') /\
    cursor_ok r' /\ data r' = data r /\
    bitpos r <= bitpos r' <= bitpos r + bits /\
    (bitpos r + bits <= 8 * len (data r) -> bitpos r' = bitpos r + bits) /\
    0 <= v < 2 ^ (k + bits).
Proof.
  intros Hok. revert k.
  apply (read_loop_ind_ok (fun r bits result o => forall k,
    0 <= bits -> 0 <= k -> 0 <= result < 2 ^ k ->
    exists v r', o = Ok (v, r') /\
      cursor_ok r' /\ data r' = data r /\
      bitpos r <= bitpos r' <= bitpos r + bits /\
      (bitpos r + bits <= 8 * len (data r) -> bitpos r' = bitpos r + bits) /\
      0 <= v < 2 ^ (k + bits))); [| | |exact Hok]; clear.
  - intros r bits result Hok Hle k Hbits Hk Hr.
    assert (bits = 0) as -> by lia.
    exists result, r. unfold cursor_ok in *.
    repeat split; rewrite ?Z.add_0_r; lia.
  - intros r bits result Hok Hpos Hend k _ Hk Hr.
    exists (Z.shiftl result bits), r. unfold cursor_ok in *.
    repeat split; try lia.
    + unfold bitpos. lia.
    + rewrite Z.shiftl_mul_pow2 by lia. nia.
    + rewrite Z.shiftl_mul_pow2, Z.pow_add_r by lia.
      assert (0 < 2 ^ bits) by (apply Z.pow_pos_nonneg; lia). nia.
  - intros r bits result b0 Hok Hpos Hb0 take r' result' Ht Ht8 Hok' IH k _ Hk Hr.
    destruct (IH (k + take)) as (v & r'' & -> & Hok'' & Hd & Hp & Hex & Hv);
      [lia | lia | apply accumulate_bound; lia |].
    destruct (advance_ok r take Hok) as (_ & Hd' & Hp'); [lia|].
    fold r' in Hd', Hp'.
    replace (k + take + (bits - take)) with (k + bits) in Hv by lia.
    exists v, r''. split; [reflexivity|]. split; [assumption|].
    split; [congruence|]. split; [lia|]. split; [|assumption].
    intros Hin. rewrite Hd' in Hex. lia.
Qed.

Lemma read_ok r n :
  cursor_ok r -> 0 <= n ->
  exists v r', read n r = Ok (v, r') /\
    cursor_ok r' /\ data r' = data r /\
    bitpos r <= bitpos r' <= bitpos r + n /\
    (bitpos r + n <= 8 * len (data r) -> bitpos r' = bitpos r + n) /\
    0 <= v < 2 ^ n.
Proof.
  intros Hok Hn. unfold read. destruct (Z.eqb_spec n 0) as [->|Hne].
  - exists 0, r. simpl. repeat split; try apply Hok; lia.
  - destruct (read_loop_ok r n 0 0 Hok Hn) as (v & r' & H); [lia | simpl; lia |].
    exists v, r'. exact H.
Qed.

(** A negative width reads nothing: the loop is not entered. *)
Lemma read_negative r n : n < 0 -> read n r = Ok (0, r).
Proof.
  intros Hn. unfold read. destruct (Z.eqb_spec n 0); [reflexivity|].
  rewrite read_loop_eq. destruct (Z.gtb_spec n 0); [lia | reflexivity].
Qed.

Lemma read_total r n :
  cursor_ok r ->
  exists v r', read n r = Ok (v, r') /\ cursor_ok r' /\ data r' = data r /\
    bitpos r <= bitpos r'.
Proof.
  intros Hok. destruct (Z_lt_le_dec n 0) as [Hneg|Hpos].
  - exists 0, r. rewrite read_negative by assumption. repeat split; try apply Hok; lia.
  - destruct (read_ok r n Hok Hpos) as (v & r' & H & Hok' & Hd & Hp & _).
    exists v, r'. repeat split; try assumption; try apply Hok'; lia.
Qed.

Lemma reachable_cursor_ok d r : reachable d r -> cursor_ok r /\ data r = d.
Proof.
  induction 1 as [|r bits v r' _ [IH1 IH2] Hread].
  - unfold cursor_ok, new_reader. simpl. repeat split; lia.
  - destruct (read_total r bits IH1) as (v' & r'' & Hr & Hok & Hd & _).
    rewrite Hr in Hread. injection Hread as <- <-. split; congruence.
Qed.

(** From a reachable reader every [read] returns, and leaves a reachable
    reader. *)
Lemma reachable_read d r n :
  reachable d r -> exists v r', read n r = Ok (v, r') /\ reachable d r'.
Proof.
  intros Hr. destruct (reachable_cursor_ok d r Hr) as [Hok _].
  destruct (read_total r n Hok) as (v & r' & E & _).
  exists v, r'. split; [exact E|]. exact (reach_read d r n v r' Hr E).
Qed.





(** A read that runs past the end returns the bits that were left, shifted
    left by the number of missing bits. *)
Lemma read_loop_truncated r bits result :
  cursor_ok r ->
  let m := Z.max 0 (8 * len (data r) - bitpos r) in
  m < bits ->
  exists u r', read_loop r m result = Ok (u, r') /\
    read_loop r bits result = Ok (Z.shiftl u (bits - m), r').
Proof.
  intros Hok.
  apply (read_loop_ind_ok (fun r bits result o =>
    let m := Z.max 0 (8 * len (data r) - bitpos r) in
    m < bits ->
    exists u r', read_loop r m result = Ok (u, r') /\
      o = Ok (Z.shiftl u (bits - m), r'))); [| | |exact Hok]; clear.
  - intros r bits result _ Hle m Hm. lia.
  - intros r bits result Hok Hpos Hend m Hm.
    assert (m = 0) as -> by (unfold cursor_ok, bitpos in *; lia).
    exists result, r. rewrite read_loop_eq. simpl. now rewrite Z.sub_0_r.
  - intros r bits result b0 Hok Hpos Hb0 take r' result' Ht Ht8 Hok' IH m Hm.
    assert (Hlt : byte_index r < len (data r)).
    { apply lookup_lt_Some in Hb0. unfold len. destruct Hok. lia. }
    destruct (advance_ok r take Hok) as (_ & Hd & Hp); [lia|].
    fold r' in Hd, Hp.
    assert (Hm' : m = 8 * len (data r) - bitpos r)
      by (unfold cursor_ok, bitpos in *; lia).
    assert (Htake : take = 8 - bit_index r)
      by (unfold cursor_ok, bitpos in *; lia).
    simpl in IH. rewrite Hd, Hp in IH.
    replace (Z.max 0 (8 * len (data r) - (bitpos r + take))) with (m - take) in IH
      by (unfold cursor_ok, bitpos in *; lia).
    destruct IH as (u & r'' & Hu & ->); [lia|].
    exists u, r''. split.
    + rewrite read_loop_eq.
      destruct (Z.gtb_spec m 0); [|unfold cursor_ok, bitpos in *; lia].
      rewrite (read_body_in r m result b0) by (assumption || lia).
      simpl. replace (Z.min (8 - bit_index r) m) with take
        by (unfold cursor_ok, bitpos in *; lia).
      exact Hu.
    + do 3 f_equal. lia.
Qed.

(** C10: every [read] from a cursor satisfying the invariant returns,
    leaves [bit_index] in [0,8), never moves the absolute bit position
    [byte_index*8 + bit_index] backward, and for every width [n >= 0] the
    value it returns is in [0, 2^n), also when the read runs past the end of
    the buffer. *)
Theorem read_keeps_cursor_invariant r n :
  cursor_ok r ->
  exists v r', read n r = Ok (v, r') /\
    cursor_ok r' /\ 0 <= bit_index r' < 8 /\
    bitpos r <= bitpos r' /\
    (0 <= n -> 0 <= v < 2 ^ n).
Proof.
  intros Hok. destruct (Z_lt_le_dec n 0) as [Hneg|Hpos].
  - exists 0, r. rewrite read_negative by assumption.
    repeat split; try apply Hok; lia.
  - destruct (read_ok r n Hok Hpos) as (v & r' & H & Hok' & _ & Hp & _ & Hv).
    exists v, r'. repeat split; try apply Hok'; try assumption; lia.
Qed.

Lemma read_keeps_cursor_invariant_witness :
  cursor_ok (mkBitReader [xab; xcd] 1 2) /\
  exists v r', read 12 (mkBitReader [xab; xcd] 1 2) = Ok (v, r') /\
    cursor_ok r' /\ 0 <= bit_index r' < 8 /\
    bitpos (mkBitReader [xab; xcd] 1 2) <= bitpos r' /\
    0 <= v < 2 ^ 12.
Proof.
  assert (H : cursor_ok (mkBitReader [xab; xcd] 1 2))
    by (unfold cursor_ok; simpl; lia).
  split; [exact H|].
  destruct (read_keeps_cursor_invariant (mkBitReader [xab; xcd] 1 2) 12 H)
    as (v & r' & Hr & Hok & Hb & Hp & Hv).
  exists v, r'. split; [exact Hr|]. split; [exact Hok|]. split; [exact Hb|].
  split; [exact Hp|]. apply Hv. lia.
Defined.



(** ** Zigzag decoding *)

Lemma zigzag_closed_form v :
  0 <= v ->
  Z.lxor (Z.shiftr v 1) (- Z.land v 1) = if Z.even v then v `div` 2 else - (v `div` 2) - 1.
Proof.
  intros Hv. change 1 with (Z.ones 1) at 2. rewrite Z.land_ones by lia.
  rewrite Z.shiftr_div_pow2 by lia. change (2 ^ 1) with 2.
  rewrite Zmod_even. destruct (Z.even v).
  - apply Z.lxor_0_r.
  - change (- (1)) with (-1). rewrite Z.lxor_m1_r. unfold Z.lnot. lia.
Qed.

Lemma zigzag_injective v w :
  0 <= v -> 0 <= w ->
  Z.lxor (Z.shiftr v 1) (- Z.land v 1) = Z.lxor (Z.shiftr w 1) (- Z.land w 1) ->
  v = w.
Proof.
  intros Hv Hw. rewrite !zigzag_closed_form by assumption.
  pose proof (Zmod_even v) as Ev. pose proof (Zmod_even w) as Ew.
  pose proof (Z.div_mod v 2). pose proof (Z.div_mod w 2).
  pose proof (Z.div_pos v 2). pose proof (Z.div_pos w 2).
  destruct (Z.even v), (Z.even w); lia.
Qed.

(** C4: [read_zigzag(n)] returns [(v >> 1) ^ -(v & 1)] for the value [v]
    that [read(n)] returns, leaving the cursor where [read(n)] leaves it; on
    a non-negative [v] that is [v/2] for an even [v] and [-(v/2) - 1] for an
    odd one; it sends the encoded values 0,1,2,3,4,5 to 0,-1,1,-2,2,-3, and
    distinct encoded values to distinct results. *)
Theorem read_zigzag_decodes n r v r' :
  read n r = Ok (v, r') ->
  read_zigzag n r = Ok (Z.lxor (Z.shiftr v 1) (- Z.land v 1), r') /\
  (0 <= v ->
   Z.lxor (Z.shiftr v 1) (- Z.land v 1) = if Z.even v then v `div` 2 else - (v `div` 2) - 1) /\
  (forall i, (i < 6)%nat ->
     v = nth i [0; 1; 2; 3; 4; 5] 0 ->
     read_zigzag n r = Ok (nth i [0; -1; 1; -2; 2; -3] 0, r')) /\
  (forall n2 r2 w r2' s, 0 <= v -> 0 <= w ->
     read n2 r2 = Ok (w, r2') ->
     read_zigzag n r = Ok (s, r') -> read_zigzag n2 r2 = Ok (s, r2') -> v = w).
Proof.
  intros Hr.
  assert (Hz : read_zigzag n r = Ok (Z.lxor (Z.shiftr v 1) (- Z.land v 1), r')).
  { unfold read_zigzag. rewrite Hr. reflexivity. }
  split; [exact Hz|]. split; [apply zigzag_closed_form|]. split.
  - intros i Hi ->. rewrite Hz.
    do 6 (destruct i as [|i]; [reflexivity|]). lia.
  - intros n2 r2 w r2' s Hv Hw Hr2. unfold read_zigzag. rewrite Hr, Hr2. simpl.
    intros [= H1] [= H2]. apply zigzag_injective; congruence.
Qed.

Lemma read_zigzag_decodes_witness :
  read 3 (new_reader [xa0]) = Ok (5, mkBitReader [xa0] 0 3) /\
  read_zigzag 3 (new_reader [xa0]) = Ok (-3, mkBitReader [xa0] 0 3).
Proof.
  assert (H : read 3 (new_reader [xa0]) = Ok (5, mkBitReader [xa0] 0 3))
    by (vm_compute; reflexivity).
  split; [exact H|].
  exact (proj1 (read_zigzag_decodes 3 (new_reader [xa0]) 5 (mkBitReader [xa0] 0 3) H)).
Defined.

(** ** The width of a local id *)

Lemma size_nat_bounds p :
  2 ^ (Z.of_nat (Pos.size_nat p) - 1) <= Z.pos p < 2 ^ Z.of_nat (Pos.size_nat p).
Proof.
  induction p as [p IH|p IH|]; [| |simpl; lia].
  all: change (Pos.size_nat _) with (S (Pos.size_nat p)).
  all: rewrite Nat2Z.inj_succ, Z.pow_succ_r by lia.
  all: replace (Z.succ (Z.of_nat (Pos.size_nat p)) - 1)
         with (Z.succ (Z.of_nat (Pos.size_nat p) - 1)) by lia.
  all: assert (1 <= Pos.size_nat p)%nat by (destruct p; simpl; lia).
  all: rewrite Z.pow_succ_r by lia; lia.
Qed.

Lemma bit_length_bounds m :
  0 < m -> 2 ^ (bit_length m - 1) <= m < 2 ^ bit_length m.
Proof.
  destruct m as [|p|p]; try lia. intros _. apply size_nat_bounds.
Qed.

Lemma bits_per_id_bounds palette_size :
  1 < palette_size ->
  0 < bits_per_id_of palette_size /\
  2 ^ (bits_per_id_of palette_size - 1) < palette_size <= 2 ^ bits_per_id_of palette_size.
Proof.
  intros H. unfold bits_per_id_of. destruct (Z.gtb_spec palette_size 1); [|lia].
  pose proof (bit_length_bounds (palette_size - 1)) as Hb.
  split; [|lia].
  destruct (palette_size - 1) as [|p|p] eqn:E; try lia.
  simpl. destruct p; simpl; lia.
Qed.

(** ** Block records of a single-entry local palette *)

Lemma chunk_of_bit b0 bit :
  0 <= bit < 8 -> (chunk_of b0 bit 1 =? 1) = Z.testbit (byte_val b0) (7 - bit).
Proof.
  intros Hbit. unfold chunk_of. change (Z.shiftl 1 1 - 1) with (Z.ones 1).
  rewrite Z.land_ones by lia. change (2 ^ 1) with 2.
  rewrite <- Z.bit0_eqb, Z.shiftr_spec by lia.
  change 255 with (Z.ones 8). rewrite Z.land_ones by lia.
  replace (8 - bit - 1) with (7 - bit) by lia.
  apply Z.mod_pow2_bits_low. lia.
Qed.

Lemma bit_at_cursor r b0 :
  cursor_ok r -> data r !! Z.to_nat (byte_index r) = Some b0 ->
  bit_at (data r) (bitpos r) = Z.testbit (byte_val b0) (7 - bit_index r).
Proof.
  intros [Hb Hbit] Hb0. unfold bit_at, bitpos.
  rewrite Z.div_add_l, Z.div_small, Z.add_0_r by lia. rewrite Hb0.
  rewrite Z.add_comm, Z.mod_add, Z.mod_small by lia. reflexivity.
Qed.

Lemma read_bool_ok r :
  cursor_ok r ->
  exists f r', read_bool r = Ok (f, r') /\
    cursor_ok r' /\ data r' = data r /\
    bitpos r <= bitpos r' <= bitpos r + 1 /\
    (bitpos r + 1 <= 8 * len (data r) ->
     f = bit_at (data r) (bitpos r) /\ bitpos r' = bitpos r + 1).
Proof.
  intros Hok. unfold read_bool.
  destruct (read_ok r 1 Hok) as (v & r' & Hr & Hok' & Hd & Hp & Hex & _); [lia|].
  rewrite Hr. simpl. exists (v =? 1), r'.
  split; [reflexivity|]. split; [assumption|]. split; [assumption|].
  split; [lia|]. intros Hin'. split; [|now apply Hex].
  assert (Hin : byte_index r < len (data r))
    by (unfold cursor_ok, bitpos in *; lia).
  destruct (lookup_in_range (data r) (byte_index r)) as [b0 Hb0];
    [destruct Hok; lia|].
  rewrite (bit_at_cursor r b0) by assumption.
  rewrite <- chunk_of_bit by apply Hok.
  unfold read in Hr. simpl in Hr. rewrite read_loop_eq in Hr. simpl in Hr.
  rewrite (read_body_in r 1 0 b0) in Hr by (assumption || lia).
  simpl in Hr. replace (Z.min (8 - bit_index r) 1) with 1 in Hr
    by (destruct Hok; lia).
  rewrite read_loop_eq in Hr. simpl in Hr. rewrite Z.lor_0_l in Hr.
  now injection Hr as <- _.
Qed.

(** A local id inside the local palette always resolves: to the global
    palette entry, or to ["INVALID"] when the global id is past its end. *)
Lemma resolve_state_total l2g gp lid g :
  getitem l2g lid = Ok g -> 0 <= g ->
  exists s, resolve_state l2g gp lid = Ok s /\
    (len gp <= g -> s = "INVALID"%string) /\
    (g < len gp -> gp !! Z.to_nat g = Some s).
Proof.
  intros Hg Hpos. unfold resolve_state. rewrite Hg. simpl.
  destruct (Z.ltb_spec g (len gp)) as [Hlt|Hge].
  - destruct (lookup_in_range gp g) as [s Hs]; [lia|].
    exists s. rewrite (getitem_lookup _ _ _ Hpos Hs).
    split; [reflexivity|]. split; [lia | intros _; exact Hs].
  - exists "INVALID"%string. split; [reflexivity|]. split; [reflexivity | lia].
Qed.

Lemma skip_y_xz_ge d p : p + 2 <= skip_y_xz d p.
Proof.
  unfold skip_y_xz. cbv zeta. destruct (bit_at d p);
    match goal with |- context [bit_at ?d ?q] => destruct (bit_at d q) end; lia.
Qed.

Lemma iter_skip_ge d k p : p <= Nat.iter k (skip_y_xz d) p.
Proof.
  induction k as [|k IH]; simpl; [lia|].
  pose proof (skip_y_xz_ge d (Nat.iter k (skip_y_xz d) p)). lia.
Qed.

Section SingleEntryPalette.

Variables (gp : list string) (sy g : Z) (s : string).
Hypothesis Hs : resolve_state [g] gp 0 = Ok s.

(** With a single-entry local palette [[g]], one iteration of the block loop
    reads the y field and the xz field and nothing else: it does not raise,
    keeps the local id 0, emits a block in the state resolved for local id
    0, and (when the record lies within the buffer) leaves the cursor right
    after the xz field. *)
Lemma decode_block_single r ly lxz blocks :
  cursor_ok r ->
  exists r' ly' lxz',
    decode_block gp sy 1 0 [g] (r, (ly, lxz, 0), blocks) =
      Ok (r', (ly', lxz', 0),
          blocks ++ [mkBlockChange (Z.land lxz' 15) (Z.shiftl sy 4 + ly')
                       (Z.shiftr lxz' 4) s]) /\
    cursor_ok r' /\ data r' = data r /\ bitpos r <= bitpos r' /\
    (skip_y_xz (data r) (bitpos r) <= 8 * len (data r) ->
     bitpos r' = skip_y_xz (data r) (bitpos r)).
Proof.
  intros Hok. unfold decode_block.
  destruct (read_bool_ok r Hok) as (f1 & r1 & E1 & Hok1 & Hd1 & Hp1 & Hx1).
  rewrite E1. simpl.
  assert (exists dy r2,
    (if f1 then read_zigzag 6 r1 else Ok (0, r1)) = Ok (dy, r2) /\
    cursor_ok r2 /\ data r2 = data r /\ bitpos r1 <= bitpos r2 /\
    (bitpos r1 + (if f1 then 6 else 0) <= 8 * len (data r) ->
     bitpos r2 = bitpos r1 + (if f1 then 6 else 0)))
    as (dy & r2 & E2 & Hok2 & Hd2 & Hp2 & Hx2).
  { destruct f1.
    - destruct (read_ok r1 6 Hok1) as (v & r2 & Hr & Hok2 & Hd2 & Hp2 & Hex & _);
        [lia|].
      unfold read_zigzag. rewrite Hr. simpl. eexists _, r2.
      split; [reflexivity|]. rewrite Hd1 in *.
      split; [assumption|]. split; [assumption|]. split; [lia|]. exact Hex.
    - exists 0, r1. split; [reflexivity|]. split; [assumption|].
      split; [assumption|]. split; lia. }
  rewrite E2. simpl.
  destruct (read_bool_ok r2 Hok2) as (f2 & r3 & E3 & Hok3 & Hd3 & Hp3 & Hx3).
  rewrite E3. simpl.
  assert (exists v r4,
    (if f2 then read 8 r3 else Ok (lxz, r3)) = Ok (v, r4) /\
    cursor_ok r4 /\ data r4 = data r /\ bitpos r3 <= bitpos r4 /\
    (bitpos r3 + (if f2 then 8 else 0) <= 8 * len (data r) ->
     bitpos r4 = bitpos r3 + (if f2 then 8 else 0)))
    as (v & r4 & E4 & Hok4 & Hd4 & Hp4 & Hx4).
  { destruct f2.
    - destruct (read_ok r3 8 Hok3) as (v & r4 & Hr & Hok4 & Hd4 & Hp4 & Hex & _);
        [lia|].
      exists v, r4. split; [exact Hr|].
      assert (Hd : data r3 = data r) by congruence.
      rewrite Hd in *.
      split; [assumption|]. split; [assumption|]. split; [lia|]. exact Hex.
    - exists lxz, r3. split; [reflexivity|]. split; [assumption|].
      split; [congruence|]. split; lia. }
  rewrite E4. simpl. rewrite Hs. simpl.
  exists r4, (ly + dy), v. split; [reflexivity|]. split; [assumption|].
  split; [assumption|]. split; [lia|].
  unfold skip_y_xz. cbv zeta. rewrite Hd2 in Hx3. intros Hin.
  assert (Hb1 : f1 = bit_at (data r) (bitpos r) /\ bitpos r1 = bitpos r + 1).
  { apply Hx1. destruct (bit_at (data r) (bitpos r));
      match type of Hin with context [bit_at ?d ?q] => destruct (bit_at d q) end; lia. }
  destruct Hb1 as [-> Hq1].
  set (a := if bit_at (data r) (bitpos r) then 6 else 0) in *.
  assert (Ha : 0 <= a) by (subst a; destruct (bit_at (data r) (bitpos r)); lia).
  assert (Hq2 : bitpos r2 = bitpos r + 1 + a).
  { rewrite <- Hq1. apply Hx2. rewrite Hq1.
    destruct (bit_at (data r) (bitpos r + 1 + a)); lia. }
  rewrite <- Hq2 in Hin |- *.
  assert (Hb2 : f2 = bit_at (data r) (bitpos r2) /\ bitpos r3 = bitpos r2 + 1).
  { apply Hx3. destruct (bit_at (data r) (bitpos r2)); lia. }
  destruct Hb2 as [-> Hq3]. rewrite <- Hq3 in Hin |- *.
  apply Hx4. exact Hin.
Qed.

Lemma block_loop_single k :
  forall i r ly lxz blocks, cursor_ok r ->
  exists r' ly' lxz' new,
    for_loop k i (fun _ => decode_block gp sy 1 0 [g]) (r, (ly, lxz, 0), blocks) =
      Ok (r', (ly', lxz', 0), blocks ++ new) /\
    length new = k /\ Forall (fun b => state b = s) new /\
    cursor_ok r' /\ data r' = data r /\ bitpos r <= bitpos r' /\
    (Nat.iter k (skip_y_xz (data r)) (bitpos r) <= 8 * len (data r) ->
     bitpos r' = Nat.iter k (skip_y_xz (data r)) (bitpos r)).
Proof.
  induction k as [|k IH]; intros i r ly lxz blocks Hok.
  - exists r, ly, lxz, []. simpl. rewrite app_nil_r.
    repeat split; try apply Hok; try constructor; lia.
  - destruct (decode_block_single r ly lxz blocks Hok)
      as (r1 & ly1 & lxz1 & E1 & Hok1 & Hd1 & Hp1 & Hx1).
    cbn [for_loop]. rewrite E1. simpl.
    destruct (IH (i + 1) r1 ly1 lxz1
                (blocks ++ [mkBlockChange (Z.land lxz1 15) (Z.shiftl sy 4 + ly1)
                              (Z.shiftr lxz1 4) s]) Hok1)
      as (r' & ly' & lxz' & new & E & Hlen & Hall & Hok' & Hd' & Hp' & Hx').
    rewrite E, <- app_assoc.
    exists r', ly', lxz', (mkBlockChange (Z.land lxz1 15) (Z.shiftl sy 4 + ly1)
                             (Z.shiftr lxz1 4) s :: new).
    split; [reflexivity|]. split; [simpl; lia|].
    split; [constructor; [reflexivity | assumption]|].
    split; [assumption|]. split; [congruence|]. split; [lia|].
    rewrite <- Nat.iter_succ, Nat.iter_succ_r. intros Hin. rewrite Hd1 in Hx'.
    assert (Hq : bitpos r1 = skip_y_xz (data r) (bitpos r)).
    { apply Hx1.
      pose proof (iter_skip_ge (data r) k (skip_y_xz (data r) (bitpos r))). lia. }
    rewrite <- Hq in *. now apply Hx'.
Qed.

End SingleEntryPalette.

(** The width of a local id is the least [k] with [palette_size <= 2^k] for
    a local palette of more than one entry and 0 for a single entry; a
    micro-cube whose local palette is the single entry [g] decodes without
    raising into [block_count] blocks that all have the state of local id 0,
    and each of its records takes the bits of its y field and xz field only:
    when the records lie within the buffer, the cursor ends where
    [block_count] such records end. *)
Lemma single_entry_micro_cube
    palette_size r gp mx my mz sy r1 g r2 n r3 :
  (1 < palette_size ->
   bits_per_id_of palette_size = Z.log2_up palette_size /\
   2 ^ (bits_per_id_of palette_size - 1) < palette_size
     <= 2 ^ bits_per_id_of palette_size) /\
  bits_per_id_of 1 = 0 /\
  (cursor_ok r ->
   read 8 r = Ok (1, r1) -> read 16 r1 = Ok (g, r2) -> read 7 r2 = Ok (n, r3) ->
   exists s blocks r',
     decode_micro_cube r gp mx my mz sy = Ok (blocks, r') /\
     resolve_state [g] gp 0 = Ok s /\
     len blocks = n /\ Forall (fun b => state b = s) blocks /\
     (Nat.iter (Z.to_nat n) (skip_y_xz (data r)) (bitpos r3) <= 8 * len (data r) ->
      bitpos r' = Nat.iter (Z.to_nat n) (skip_y_xz (data r)) (bitpos r3))).
Proof.
  split; [|split; [reflexivity|]].
  - intros Hps. destruct (bits_per_id_bounds palette_size Hps) as [Hpos Hb].
    split; [|exact Hb]. symmetry. apply Z.log2_up_unique; [assumption|].
    replace (Z.pred (bits_per_id_of palette_size))
      with (bits_per_id_of palette_size - 1) by lia. exact Hb.
  - intros Hok H8 H16 H7.
    destruct (read_ok r 8 Hok) as (? & ? & E8 & Hok1 & Hd1 & _); [lia|].
    rewrite H8 in E8. injection E8 as <- <-.
    destruct (read_ok r1 16 Hok1) as (? & ? & E16 & Hok2 & Hd2 & _ & _ & Hg); [lia|].
    rewrite H16 in E16. injection E16 as <- <-.
    destruct (read_ok r2 7 Hok2) as (? & ? & E7 & Hok3 & Hd3 & _ & _ & Hn); [lia|].
    rewrite H7 in E7. injection E7 as <- <-.
    destruct (resolve_state_total [g] gp 0 g) as (s & Hs & _);
      [reflexivity | lia |].
    destruct (block_loop_single gp sy g s Hs (Z.to_nat n) 0 r3 0 0 [] Hok3)
      as (r' & ly' & lxz' & new & E & Hlen & Hall & _ & _ & _ & Hx).
    exists s, new, r'. unfold decode_micro_cube. rewrite H8. simpl.
    unfold for_range. change (Z.to_nat 1) with 1%nat. cbn [for_loop].
    rewrite H16. simpl. rewrite H7. simpl.
    change (bits_per_id_of 1) with 0. rewrite E. simpl.
    split; [reflexivity|]. split; [exact Hs|].
    split; [unfold len; lia|]. split; [exact Hall|].
    replace (data r3) with (data r) in Hx by congruence. exact Hx.
Qed.

(** ** The order of the micro-cube calls *)

Lemma outcome_bind_assoc {A B C} (m : outcome A) (f : A -> outcome B) (g : B -> outcome C) :
  (m ≫= f) ≫= g = m ≫= (fun a => f a ≫= g).
Proof. destruct m; reflexivity. Qed.

Section Calls.

Context (cube : micro_cube_decoder).

Lemma cube_calls_with_app gp sy l1 l2 r :
  cube_calls_with cube gp sy (l1 ++ l2) r =
  '(a, r1) ← cube_calls_with cube gp sy l1 r;
  '(b, r2) ← cube_calls_with cube gp sy l2 r1;
  Ok (a ++ b, r2).
Proof.
  revert r. induction l1 as [|[[mx my] mz] l1 IH]; intros r; simpl.
  - destruct (cube_calls_with cube gp sy l2 r) as [[b r2]|e]; reflexivity.
  - destruct (cube r gp mx my mz sy) as [[res r1]|e]; simpl; [|reflexivity].
    rewrite IH. destruct (cube_calls_with cube gp sy l1 r1) as [[a r2]|e]; simpl;
      [|reflexivity].
    destruct (cube_calls_with cube gp sy l2 r2) as [[b r3]|e]; reflexivity.
Qed.

Lemma cube_calls_with_length gp sy cubes r ress r' :
  cube_calls_with cube gp sy cubes r = Ok (ress, r') -> length ress = length cubes.
Proof.
  revert r ress r'. induction cubes as [|[[mx my] mz] cubes IH]; intros r ress r'; simpl.
  - now intros [= <- _].
  - destruct (cube r gp mx my mz sy) as [[res r1]|e]; simpl; [|discriminate].
    destruct (cube_calls_with cube gp sy cubes r1) as [[a r2]|e] eqn:E; simpl;
      [|discriminate].
    intros [= <- _]. simpl. f_equal. eapply IH, E.
Qed.

Lemma for_loop_collects gp sy (g : Z -> list (Z * Z * Z)) inner k :
  (forall j, collects cube gp sy (g j) (inner j)) ->
  forall i, collects cube gp sy (flat_map g (range_from i k)) (for_loop k i inner).
Proof.
  intros Hin. induction k as [|k IH]; intros i r all; simpl.
  - now rewrite app_nil_r.
  - rewrite (Hin i r all), cube_calls_with_app.
    destruct (cube_calls_with cube gp sy (g i) r) as [[a r1]|e]; simpl; [|reflexivity].
    rewrite (IH (i + 1) r1 (all ++ concat a)).
    destruct (cube_calls_with cube gp sy _ r1) as [[b r2]|e]; simpl; [|reflexivity].
    now rewrite concat_app, app_assoc.
Qed.

(** The loop nest of lines 83-87 calls the method once per coordinate of
    [cube_order], in that order and with that coordinate. *)
Lemma decode_section_with_calls gp r all :
  decode_section_with cube gp (r, all) =
  '(sy, r1) ← read_zigzag 16 r;
  '(ress, r2) ← cube_calls_with cube gp sy cube_order r1;
  Ok (r2, all ++ concat ress).
Proof.
  unfold decode_section_with.
  destruct (read_zigzag 16 r) as [[sy r1]|e]; simpl; [|reflexivity].
  unfold for_range. change (Z.to_nat 4) with 4%nat.
  apply (for_loop_collects gp sy
           (fun my => flat_map (fun mz => flat_map (fun mx => [(mx, my, mz)])
                                            (range_from 0 4)) (range_from 0 4))).
  intros my.
  apply (for_loop_collects gp sy
           (fun mz => flat_map (fun mx => [(mx, my, mz)]) (range_from 0 4))).
  intros mz.
  apply (for_loop_collects gp sy (fun mx => [(mx, my, mz)])).
  intros mx r' all'. simpl.
  destruct (cube r' gp mx my mz sy) as [[res r'']|e]; simpl; [|reflexivity].
  now rewrite app_nil_r.
Qed.

Lemma section_loop_with_calls gp n :
  forall i r all,
    for_loop n i (fun _ => decode_section_with cube gp) (r, all) =
    '(secs, r') ← section_calls_with cube gp n r;
    Ok (r', all ++ concat (map (@concat BlockChange) secs)).
Proof.
  induction n as [|n IH]; intros i r all; cbn [for_loop section_calls_with].
  - simpl. now rewrite app_nil_r.
  - rewrite decode_section_with_calls.
    destruct (read_zigzag 16 r) as [[sy r1]|e]; run;
      [|reflexivity].
    destruct (cube_calls_with cube gp sy cube_order r1) as [[ress r2]|e];
      run; [|reflexivity].
    rewrite IH.
    destruct (section_calls_with cube gp n r2) as [[secs r3]|e]; run;
      [|reflexivity].
    cbn [map concat]. now rewrite app_assoc.
Qed.

Lemma section_calls_with_shape gp n :
  forall r secs r',
    section_calls_with cube gp n r = Ok (secs, r') ->
    length secs = n /\ Forall (fun sec => length sec = 64%nat) secs.
Proof.
  induction n as [|n IH]; intros r secs r'; cbn [section_calls_with].
  - intros [= <- _]. split; [reflexivity | constructor].
  - destruct (read_zigzag 16 r) as [[sy r1]|e]; run;
      [|discriminate].
    destruct (cube_calls_with cube gp sy cube_order r1) as [[ress r2]|e] eqn:Ec;
      run; [|discriminate].
    destruct (section_calls_with cube gp n r2) as [[secs' r3]|e] eqn:Es;
      run; [|discriminate].
    intros [= <- _]. destruct (IH _ _ _ Es) as [Hl Hf].
    split; [simpl; now rewrite Hl|].
    constructor; [|exact Hf]. now rewrite (cube_calls_with_length _ _ _ _ _ _ Ec).
Qed.

Lemma decode_instructions_with_calls gp inst :
  decode_instructions_with cube gp inst =
  '(section_count, r0) ← read 16 (new_reader inst);
  '(secs, _) ← section_calls_with cube gp (Z.to_nat section_count) r0;
  Ok (concat (map (@concat BlockChange) secs)).
Proof.
  unfold decode_instructions_with.
  destruct (read 16 (new_reader inst)) as [[sc r0]|e]; simpl; [|reflexivity].
  unfold for_range. rewrite section_loop_with_calls.
  destruct (section_calls_with cube gp (Z.to_nat sc) r0) as [[secs r']|e]; reflexivity.
Qed.

End Calls.

(** The calls of [CISDecoder.decode_micro_cube], unfolded once. *)
Lemma cube_calls_cons gp sy mx my mz cubes r :
  cube_calls gp sy ((mx, my, mz) :: cubes) r =
  '(res, r1) ← decode_micro_cube r gp mx my mz sy;
  '(ress, r2) ← cube_calls gp sy cubes r1;
  Ok (res :: ress, r2).
Proof. reflexivity. Qed.

Lemma section_calls_succ gp n r :
  section_calls gp (S n) r =
  '(sy, r1) ← read_zigzag 16 r;
  '(ress, r2) ← cube_calls gp sy cube_order r1;
  '(secs, r3) ← section_calls gp n r2;
  Ok (ress :: secs, r3).
Proof. reflexivity. Qed.

Lemma decode_instructions_calls gp inst :
  decode_instructions gp inst =
  '(section_count, r0) ← read 16 (new_reader inst);
  '(secs, _) ← section_calls gp (Z.to_nat section_count) r0;
  Ok (concat (map (@concat BlockChange) secs)).
Proof. apply decode_instructions_with_calls. Qed.

(** A chunk that decodes has the blocks its instruction stream decodes to,
    over its own global palette. *)
Lemma decode_chunk_blocks mapping f c :
  decode_chunk mapping f = Ok (Some c) ->
  exists inst, decode_instructions (palette c) inst = Ok (blocks c).
Proof.
  unfold decode_chunk, decode_chunk_with. fold decode_instructions.
  destruct (f_read 4 f) as [magic_bytes f1].
  destruct (is_empty magic_bytes); [discriminate|].
  destruct (unpack_I magic_bytes) as [magic|e]; run;
    [|discriminate].
  destruct (magic =? 1128878900); cbn [negb]; [|discriminate].
  destruct (f_read 4 f1) as [bs1 f2].
  destruct (unpack_I bs1) as [ver|e]; run;
    [|discriminate].
  destruct (f_read 4 f2) as [bs2 f3].
  destruct (unpack_I bs2) as [psize|e]; run;
    [|discriminate].
  destruct (for_range psize _ _) as [[f4 gp]|e]; run;
    [|discriminate].
  destruct (f_read 4 f4) as [bs3 f5].
  destruct (unpack_I bs3) as [inst_len|e]; run;
    [|discriminate].
  destruct (f_read inst_len f5) as [inst f6].
  destruct (f_read 4 f6) as [bec f7].
  destruct (if is_empty bec then _ else _) as [be|e]; run;
    [|discriminate].
  destruct (decode_instructions gp inst) as [all|e] eqn:E; run;
    [|discriminate].
  intros [= <-]. simpl. now exists inst.
Qed.

Example decode_example_payload :
  decode_chunk {[ 42 := "stone_stairs"%string ]} example_payload = Ok (Some example_chunk).
Proof. vm_compute. reflexivity. Qed.

(** ** The chunk header *)

Lemma f_read_app p rest n : n = len p -> f_read n (p ++ rest) = (p, rest).
Proof.
  intros ->. unfold f_read, len. destruct (Z.ltb_spec (Z.of_nat (length p)) 0); [lia|].
  rewrite Nat2Z.id, take_app_length, drop_app_length. reflexivity.
Qed.

Lemma f_read_short s n : len s <= n -> f_read n s = (s, []).
Proof.
  intros H. unfold f_read, len in *. destruct (Z.ltb_spec n 0); [lia|].
  rewrite take_ge, drop_ge by lia. reflexivity.
Qed.

Lemma be_uint_nonneg bs : 0 <= be_uint bs.
Proof.
  unfold be_uint. assert (H : forall acc, 0 <= acc ->
    0 <= fold_left (fun acc b => acc * 256 + byte_val b) bs acc); [|apply H; lia].
  induction bs as [|b bs IH]; intros acc Hacc; simpl; [assumption|].
  apply IH. unfold byte_val. lia.
Qed.

Lemma unpack_I_short s : (length s < 4)%nat -> unpack_I s = Raise StructError.
Proof.
  intros H. unfold unpack_I, len. destruct (Z.eqb_spec (Z.of_nat (length s)) 4); [lia|].
  reflexivity.
Qed.

Lemma unpack_I_ok s : length s = 4%nat -> unpack_I s = Ok (be_uint s).
Proof. intros H. unfold unpack_I, len. now rewrite H. Qed.

Lemma for_loop_add {S} (body : Z -> S -> outcome S) k1 k2 :
  forall i s,
    for_loop (k1 + k2) i body s =
    s' ← for_loop k1 i body s; for_loop k2 (i + Z.of_nat k1) body s'.
Proof.
  induction k1 as [|k1 IH]; intros i s.
  - simpl. now rewrite Z.add_0_r.
  - cbn [for_loop Nat.add]. destruct (body i s) as [s1|e]; run;
      [|reflexivity].
    rewrite IH. do 2 f_equal. lia.
Qed.

Lemma cis4_magic : unpack_I cis4 = Ok 0x43495334.
Proof. reflexivity. Qed.

(** The first steps of [decode_chunk] on a payload that starts with the
    magic. *)
Ltac read_magic :=
  unfold decode_chunk, decode_chunk_with; fold decode_instructions; rewrite (f_read_app cis4) by reflexivity;
  cbn [is_empty cis4]; fold cis4; rewrite cis4_magic; run;
  change (negb (0x43495334 =? 0x43495334)) with false; cbv iota.

Section Header.

Context (mapping : gmap Z string).

Lemma palette_entry_ok a b c rest gp :
  read_palette_entry mapping (a :: b :: c :: rest, gp) =
  Ok (rest, gp ++ [palette_name mapping (be_uint [a; b]) (byte_val c)]).
Proof. reflexivity. Qed.

(** [k] whole entries of the global palette are read without raising. *)
Lemma palette_loop_ok k :
  forall i entries rest gp, length entries = (3 * k)%nat ->
  exists names, length names = k /\
    for_loop k i (fun _ => read_palette_entry mapping) (entries ++ rest, gp) =
    Ok (rest, gp ++ names).
Proof.
  induction k as [|k IH]; intros i entries rest gp Hlen.
  - destruct entries; [|simpl in Hlen; lia]. exists []. now rewrite app_nil_r.
  - destruct entries as [|a [|b [|c entries]]]; try (simpl in Hlen; lia).
    destruct (IH (i + 1) entries rest
                (gp ++ [palette_name mapping (be_uint [a; b]) (byte_val c)]))
      as (names & Hn & E); [simpl in Hlen; lia|].
    exists (palette_name mapping (be_uint [a; b]) (byte_val c) :: names).
    split; [simpl; now rewrite Hn|].
    cbn [for_loop]. change ((a :: b :: c :: entries) ++ rest)
      with (a :: b :: c :: entries ++ rest).
    rewrite palette_entry_ok. run.
    rewrite E, <- app_assoc. reflexivity.
Qed.

(** A palette entry cut short raises: [struct.error] within the mapping id,
    [TypeError] (from [ord]) when only the facing byte is missing. *)
Lemma palette_entry_truncated s gp :
  (length s <= 2)%nat ->
  read_palette_entry mapping (s, gp) =
  Raise (if (length s =? 2)%nat then TypeError else StructError).
Proof.
  intros H. unfold read_palette_entry.
  rewrite f_read_short by (unfold len; lia).
  unfold unpack_H, len.
  destruct (Nat.eqb_spec (length s) 2) as [E|E].
  - rewrite E. reflexivity.
  - destruct (Z.eqb_spec (Z.of_nat (length s)) 2); [lia | reflexivity].
Qed.

(** What [decode_chunk] does once the magic, the version and the palette
    size have been read. *)
Lemma decode_chunk_after_palette_size ver psz rest :
  length ver = 4%nat -> length psz = 4%nat ->
  decode_chunk mapping (cis4 ++ ver ++ psz ++ rest) =
  '(f, global_palette) ←
    for_range (be_uint psz) (fun _ => read_palette_entry mapping) (rest, []);
  let '(bs, f) := f_read 4 f in
  inst_len ← unpack_I bs;
  let '(inst_data, f) := f_read inst_len f in
  let '(be_count_data, f) := f_read 4 f in
  be_count ← (if is_empty be_count_data then Ok 0 else unpack_I be_count_data);
  all_blocks ← decode_instructions global_palette inst_data;
  Ok (Some (mkChunkRecord (be_uint ver) global_palette all_blocks be_count)).
Proof.
  intros Hv Hp. read_magic.
  rewrite (f_read_app ver) by (unfold len; lia).
  rewrite (unpack_I_ok ver Hv). run.
  rewrite (f_read_app psz) by (unfold len; lia).
  rewrite (unpack_I_ok psz Hp). run. reflexivity.
Qed.

(** What [decode_chunk] does once the whole header up to the instruction
    length has been read: the lenient part of the decoder. *)
Lemma decode_chunk_after_header ver psz entries ilen rest :
  length ver = 4%nat -> length psz = 4%nat ->
  length entries = (3 * Z.to_nat (be_uint psz))%nat -> length ilen = 4%nat ->
  exists gp, length gp = Z.to_nat (be_uint psz) /\
    decode_chunk mapping (cis4 ++ ver ++ psz ++ entries ++ ilen ++ rest) =
    let '(inst_data, f) := f_read (be_uint ilen) rest in
    let '(be_count_data, f) := f_read 4 f in
    be_count ← (if is_empty be_count_data then Ok 0 else unpack_I be_count_data);
    all_blocks ← decode_instructions gp inst_data;
    Ok (Some (mkChunkRecord (be_uint ver) gp all_blocks be_count)).
Proof.
  intros Hv Hp He Hi.
  destruct (palette_loop_ok (Z.to_nat (be_uint psz)) 0 entries (ilen ++ rest) [] He)
    as (gp & Hg & E).
  exists gp. split; [exact Hg|].
  rewrite decode_chunk_after_palette_size by assumption.
  unfold for_range. rewrite E. cbn [mbind outcome_bind app].
  rewrite (f_read_app ilen) by (unfold len; lia).
  rewrite (unpack_I_ok ilen Hi). reflexivity.
Qed.

End Header.

(** C9: a payload that ends inside a fixed-width header field makes
    [decode_chunk] raise instead of defaulting the field to zero:
    [struct.error] for 1 to 3 bytes of magic, for a short version, palette
    size, mapping id or instruction length and for 1 to 3 bytes of block
    entity count, and [TypeError] (raised by [ord]) when a palette entry
    lacks only its facing byte.  The leniency is elsewhere: a payload that
    ends after the instruction length, within or right after the
    instruction stream, is decoded from the instruction bytes that are
    there, with a block entity count of 0. *)
Theorem truncated_header_raises mapping f e ver psz entries ilen inst :
  (truncated_header f e -> decode_chunk mapping f = Raise e) /\
  (length ver = 4%nat -> length psz = 4%nat ->
   length entries = (3 * Z.to_nat (be_uint psz))%nat -> length ilen = 4%nat ->
   len inst <= be_uint ilen ->
   exists gp, length gp = Z.to_nat (be_uint psz) /\
     decode_chunk mapping (cis4 ++ ver ++ psz ++ entries ++ ilen ++ inst) =
     all_blocks ← decode_instructions gp inst;
     Ok (Some (mkChunkRecord (be_uint ver) gp all_blocks 0))).
Proof.
  split.
  - intros H. clear ver psz entries ilen inst. destruct H as
      [s Hs | s Hs | ver s Hv Hs | ver psz k entries s Hv Hp He Hk Hs
      | ver psz k entries s Hv Hp He Hk Hs | ver psz entries s Hv Hp He Hs
      | ver psz entries ilen inst s Hv Hp He Hi Hn Hs].
    + unfold decode_chunk, decode_chunk_with.
      rewrite f_read_short by (unfold len; lia).
      destruct s; [simpl in Hs; lia|]. cbn [is_empty].
      rewrite unpack_I_short by lia. reflexivity.
    + read_magic.
      rewrite f_read_short by (unfold len; lia).
      rewrite unpack_I_short by lia. reflexivity.
    + read_magic.
      rewrite (f_read_app ver) by (unfold len; lia).
      rewrite (unpack_I_ok ver Hv). run.
      rewrite f_read_short by (unfold len; lia).
      rewrite unpack_I_short by lia. reflexivity.
    + rewrite decode_chunk_after_palette_size by assumption. unfold for_range.
      replace (Z.to_nat (be_uint psz))
        with (k + S (Z.to_nat (be_uint psz) - S k))%nat by lia.
      rewrite for_loop_add.
      destruct (palette_loop_ok mapping k 0 entries s [] He) as (names & _ & ->).
      cbn [mbind outcome_bind for_loop].
      rewrite palette_entry_truncated by lia.
      destruct (Nat.eqb_spec (length s) 2); [lia | reflexivity].
    + rewrite decode_chunk_after_palette_size by assumption. unfold for_range.
      replace (Z.to_nat (be_uint psz))
        with (k + S (Z.to_nat (be_uint psz) - S k))%nat by lia.
      rewrite for_loop_add.
      destruct (palette_loop_ok mapping k 0 entries s [] He) as (names & _ & ->).
      cbn [mbind outcome_bind for_loop].
      rewrite palette_entry_truncated by lia.
      destruct (Nat.eqb_spec (length s) 2); [reflexivity | lia].
    + rewrite decode_chunk_after_palette_size by assumption. unfold for_range.
      destruct (palette_loop_ok mapping _ 0 entries s [] He) as (names & _ & ->).
      cbn [mbind outcome_bind app].
      rewrite f_read_short by (unfold len; lia).
      rewrite unpack_I_short by lia. reflexivity.
    + destruct (decode_chunk_after_header mapping ver psz entries ilen (inst ++ s)
                  Hv Hp He Hi) as (gp & _ & ->).
      rewrite (f_read_app inst) by (symmetry; exact Hn).
      rewrite f_read_short by (unfold len; lia).
      destruct s; [simpl in Hs; lia|]. cbn [is_empty].
      rewrite unpack_I_short by lia. reflexivity.
  - intros Hv Hp He Hi Hn.
    destruct (decode_chunk_after_header mapping ver psz entries ilen inst
                Hv Hp He Hi) as (gp & Hg & ->).
    exists gp. split; [exact Hg|].
    rewrite f_read_short by exact Hn.
    rewrite (f_read_short []) by (unfold len; simpl; lia). reflexivity.
Qed.

Lemma truncated_header_raises_witness :
  decode_chunk ∅ (cis4 ++ [x00; x00; x00; x01] ++ [x00; x00; x00; x02]
                    ++ [x00; x2a; x02] ++ [x00; x07]) = Raise TypeError /\
  exists gp, length gp = Z.to_nat (be_uint [x00; x00; x00; x00]) /\
    decode_chunk ∅ (cis4 ++ [x00; x00; x00; x01] ++ [x00; x00; x00; x00] ++ []
                      ++ [x00; x00; x00; x05] ++ [x00; x00]) =
    all_blocks ← decode_instructions gp [x00; x00];
    Ok (Some (mkChunkRecord (be_uint [x00; x00; x00; x01]) gp all_blocks 0)).
Proof.
  destruct (truncated_header_raises ∅
              (cis4 ++ [x00; x00; x00; x01] ++ [x00; x00; x00; x02]
                 ++ [x00; x2a; x02] ++ [x00; x07]) TypeError
              [x00; x00; x00; x01] [x00; x00; x00; x00] []
              [x00; x00; x00; x05] [x00; x00]) as [H1 H2].
  split.
  - apply H1.
    apply (trunc_facing [x00; x00; x00; x01] [x00; x00; x00; x02] 1
             [x00; x2a; x02] [x00; x07]); try reflexivity.
    vm_compute. lia.
  - apply H2; try reflexivity. vm_compute. discriminate.
Defined.

(** C7: a payload with the valid magic, an empty global palette and an
    instruction stream whose section count reads as 0 decodes to a record
    with no block, the version as read, and as block entity count the
    trailing big-endian u32, or 0 when no byte is left for it. *)
Theorem empty_chunk_decodes mapping ver ilen rest r' :
  length ver = 4%nat -> length ilen = 4%nat ->
  let inst := take (Z.to_nat (be_uint ilen)) rest in
  let tail := take 4 (drop (Z.to_nat (be_uint ilen)) rest) in
  read 16 (new_reader inst) = Ok (0, r') ->
  (tail = [] ->
   decode_chunk mapping (cis4 ++ ver ++ [x00; x00; x00; x00] ++ ilen ++ rest) =
   Ok (Some (mkChunkRecord (be_uint ver) [] [] 0))) /\
  (length tail = 4%nat ->
   decode_chunk mapping (cis4 ++ ver ++ [x00; x00; x00; x00] ++ ilen ++ rest) =
   Ok (Some (mkChunkRecord (be_uint ver) [] [] (be_uint tail)))).
Proof.
  intros Hv Hi inst tail Hr.
  destruct (decode_chunk_after_header mapping ver [x00; x00; x00; x00] [] ilen rest)
    as (gp & Hg & E); try assumption; try reflexivity.
  destruct gp; [|simpl in Hg; discriminate].
  change ([] ++ ilen ++ rest) with (ilen ++ rest) in E. rewrite E. clear E.
  pose proof (be_uint_nonneg ilen) as Hnn.
  unfold f_read. destruct (Z.ltb_spec (be_uint ilen) 0); [lia|].
  change (4 <? 0) with false. cbv iota beta. change (Z.to_nat 4) with 4%nat.
  fold inst. fold tail.
  assert (Hd : decode_instructions [] inst = Ok []).
  { unfold decode_instructions, decode_instructions_with. rewrite Hr. reflexivity. }
  rewrite Hd. split.
  - intros ->. reflexivity.
  - intros Ht. destruct tail; [simpl in Ht; lia|]. cbn [is_empty].
    rewrite unpack_I_ok by assumption. reflexivity.
Qed.

Lemma empty_chunk_decodes_witness :
  let f1 := cis4 ++ [x00; x00; x00; x01] ++ [x00; x00; x00; x00]
            ++ [x00; x00; x00; x02] ++ [x00; x00] in
  let f2 := cis4 ++ [x00; x00; x00; x01] ++ [x00; x00; x00; x00]
            ++ [x00; x00; x00; x00] ++ [x00; x00; x01; x02; xff] in
  decode_chunk ∅ f1 = Ok (Some (mkChunkRecord 1 [] [] 0)) /\
  decode_chunk ∅ f2 = Ok (Some (mkChunkRecord 1 [] [] 258)).
Proof.
  split.
  - apply (proj1 (empty_chunk_decodes ∅ [x00; x00; x00; x01] [x00; x00; x00; x02]
                    [x00; x00] (mkBitReader [x00; x00] 2 0)
                    eq_refl eq_refl eq_refl)).
    reflexivity.
  - apply (proj2 (empty_chunk_decodes ∅ [x00; x00; x00; x01] [x00; x00; x00; x00]
                    [x00; x00; x01; x02; xff] (new_reader [])
                    eq_refl eq_refl eq_refl)).
    reflexivity.
Defined.

(** ** The magic *)

(** C2, as stated, fails: on a payload whose 4-byte magic is read in full
    and is not [0x43495334], [decode_chunk] raises nothing; it returns the
    very [None] it returns on an empty stream. *)
Lemma wrong_magic_is_not_an_error :
  unpack_I (take 4 wrong_magic_payload) = Ok 0x43495333 /\
  decode_chunk ∅ wrong_magic_payload = Ok None /\
  decode_chunk ∅ wrong_magic_payload = decode_chunk ∅ [] /\
  ~ exists e, decode_chunk ∅ wrong_magic_payload = Raise e.
Proof.
  repeat split; try reflexivity. intros [e He]. discriminate He.
Qed.

(** C2, amended: an empty stream yields [None], and so does every payload
    whose 4-byte magic is read in full and differs from [0x43495334]: no
    exception is raised and no record, partial or not, is returned. *)
Theorem wrong_magic_returns_none mapping magic_bytes rest :
  length magic_bytes = 4%nat -> be_uint magic_bytes <> 0x43495334 ->
  decode_chunk mapping [] = Ok None /\
  decode_chunk mapping (magic_bytes ++ rest) = Ok None.
Proof.
  intros Hl Hm. split; [reflexivity|]. unfold decode_chunk, decode_chunk_with.
  rewrite (f_read_app magic_bytes) by (unfold len; lia).
  destruct magic_bytes; [discriminate Hl|]. cbn [is_empty].
  rewrite unpack_I_ok by assumption. run.
  destruct (Z.eqb_spec (be_uint (b :: magic_bytes)) 0x43495334); [contradiction|].
  reflexivity.
Qed.

Lemma wrong_magic_returns_none_witness :
  decode_chunk ∅ [] = Ok None /\
  decode_chunk ∅ ([x43; x49; x53; x33] ++ [x00; x00; x00; x01]) = Ok None.
Proof.
  apply (wrong_magic_returns_none ∅ [x43; x49; x53; x33] [x00; x00; x00; x01]).
  - reflexivity.
  - vm_compute. discriminate.
Defined.

(** ** Palette indices *)

(** C1, at the chunk [local_id_payload]: the local id 3 is read from the
    stream for a local palette of 3 entries, the subscript
    [local_to_global[lid]] raises [IndexError], and neither the micro-cube
    nor the chunk yields a block list. *)
Theorem local_id_past_local_palette_raises :
  decode_micro_cube (mkBitReader (take 13 (drop 19 local_id_payload)) 4 0)
    ["stone"%string] 0 0 0 0 = Raise IndexError /\
  decode_chunk {[ 42 := "stone"%string ]} local_id_payload = Raise IndexError.
Proof. split; vm_compute; reflexivity. Qed.

(** The part of C1 that holds: once the local id is inside the local
    palette, resolving never raises, and a global id at or past the end of
    the global palette gives the state ["INVALID"]. *)
Lemma global_id_out_of_range_is_invalid l2g gp lid g :
  getitem l2g lid = Ok g -> len gp <= g ->
  resolve_state l2g gp lid = Ok "INVALID"%string.
Proof.
  intros Hg Hge. unfold resolve_state. rewrite Hg. run.
  destruct (Z.ltb_spec g (len gp)); [lia | reflexivity].
Qed.

(** ** The region loop *)

Section Region.

Context (decompress : list byte -> option (list byte)) (mapping : gmap Z string).
Context (file header : list byte).
Hypothesis Hl : length header = 2048%nat.

Lemma slice_header_length i :
  0 <= i < 256 -> len (slice header (i * 8) (i * 8 + 8)) = 8.
Proof.
  intros Hi. unfold slice, len.
  rewrite length_take, length_drop, Hl. lia.
Qed.

Lemma parse_slot_chunks i chunks :
  0 <= i < 256 ->
  parse_slot decompress mapping file header i chunks =
  Ok (chunks ++ slot_chunks decompress mapping file header i).
Proof.
  intros Hi. unfold parse_slot, slot_chunks, slot_bytes, slot_entry, unpack_II.
  rewrite slice_header_length by assumption. cbn [Z.eqb Pos.eqb mbind outcome_bind].
  cbv zeta.
  set (off := be_uint (take 4 _)). set (length := be_uint (drop 4 _)).
  pose proof (be_uint_nonneg (drop 4 (slice header (i * 8) (i * 8 + 8)))) as Hn.
  fold length in Hn.
  destruct ((off >? 0) && (length >? 0)); [|now rewrite app_nil_r].
  unfold f_read. destruct (Z.ltb_spec length 0); [lia|].
  destruct (decompress _) as [d|]; [|now rewrite app_nil_r].
  destruct (decode_chunk mapping d) as [[c|]|e]; try reflexivity;
    now rewrite app_nil_r.
Qed.

Lemma region_loop_chunks k :
  forall i chunks, 0 <= i -> i + Z.of_nat k <= 256 ->
  for_loop k i (parse_slot decompress mapping file header) chunks =
  Ok (chunks ++ flat_map (slot_chunks decompress mapping file header) (range_from i k)).
Proof.
  induction k as [|k IH]; intros i chunks Hi Hk.
  - simpl. now rewrite app_nil_r.
  - cbn [for_loop range_from flat_map].
    rewrite parse_slot_chunks by (assumption || lia).
    run. rewrite IH by lia. now rewrite app_assoc.
Qed.

End Region.

Lemma elem_of_range_from j k : forall i, j ∈ range_from i k <-> i <= j < i + Z.of_nat k.
Proof.
  induction k as [|k IH]; intros i; simpl.
  - rewrite elem_of_nil. lia.
  - rewrite elem_of_cons, IH. lia.
Qed.

(** C8: over a 2048-byte header, [parse_region] never raises, and the chunk
    list it builds is the concatenation, slot after slot, of what each of the
    256 slots contributes on its own: nothing when the entry is unused, when
    decompressing its bytes fails or when decoding the chunk raises or gives
    no chunk, and its decoded chunk otherwise.  So when two files under the
    same header agree on the bytes of every slot but [k], each slot other
    than [k] contributes the same chunk in both, whatever slot [k] holds. *)
Theorem corrupt_slot_is_skipped decompress mapping header file file' k :
  length header = 2048%nat ->
  Forall (fun j => j = k \/ slot_bytes file header j = slot_bytes file' header j)
    (range_from 0 256) ->
  parse_region decompress mapping file header =
    Ok (flat_map (slot_chunks decompress mapping file header) (range_from 0 256)) /\
  parse_region decompress mapping file' header =
    Ok (flat_map (slot_chunks decompress mapping file' header) (range_from 0 256)) /\
  (forall j, 0 <= j < 256 -> j <> k ->
     slot_chunks decompress mapping file' header j =
     slot_chunks decompress mapping file header j) /\
  (decompress (slot_bytes file' header k) = None ->
   slot_chunks decompress mapping file' header k = []) /\
  (forall d e, decompress (slot_bytes file' header k) = Some d ->
     decode_chunk mapping d = Raise e ->
     slot_chunks decompress mapping file' header k = []).
Proof.
  intros Hl Hsame. unfold parse_region, for_range. change (Z.to_nat 256) with 256%nat.
  rewrite !region_loop_chunks by (assumption || lia). cbn [app].
  split; [reflexivity|]. split; [reflexivity|]. split; [|split].
  - intros j Hj Hne. rewrite Forall_forall in Hsame.
    destruct (Hsame j) as [|Hb]; [apply elem_of_range_from; lia | contradiction |].
    unfold slot_chunks. rewrite Hb. reflexivity.
  - intros Hd. unfold slot_chunks. rewrite Hd.
    destruct (slot_entry header k) as [off length].
    destruct ((off >? 0) && (length >? 0)); reflexivity.
  - intros d e Hd He. unfold slot_chunks. rewrite Hd, He.
    destruct (slot_entry header k) as [off length].
    destruct ((off >? 0) && (length >? 0)); reflexivity.
Qed.

Lemma corrupt_slot_is_skipped_witness :
  parse_region stored_decompress {[ 42 := "stone_stairs"%string ]}
    region_file region_header = Ok [(0, 0, example_chunk); (1, 0, example_chunk)] /\
  parse_region stored_decompress {[ 42 := "stone_stairs"%string ]}
    corrupt_region_file region_header = Ok [(1, 0, example_chunk)].
Proof.
  destruct (corrupt_slot_is_skipped stored_decompress {[ 42 := "stone_stairs"%string ]}
              region_header region_file corrupt_region_file 0)
    as (H1 & H2 & _).
  - vm_compute. reflexivity.
  - apply (bool_decide_unpack _). vm_compute. exact I.
  - rewrite H1, H2. split; vm_compute; reflexivity.
Defined.

(** * Further properties *)

(** ** Reads compose *)

Lemma read_is_loop r n : 0 <= n -> read n r = read_loop r n 0.
Proof.
  intros Hn. unfold read. destruct (Z.eqb_spec n 0) as [->|]; [|reflexivity].
  rewrite read_loop_eq. reflexivity.
Qed.

(** The accumulator only shifts: the loop started with accumulator [X]
    returns [X << bits] or-ed with what it returns from accumulator 0. *)
Lemma read_loop_accumulates r bits :
  cursor_ok r -> 0 <= bits ->
  exists w r', forall X, read_loop r bits X = Ok (Z.lor (Z.shiftl X bits) w, r').
Proof.
  intros Hok.
  pose proof (read_loop_ind_ok (fun r bits _ _ => 0 <= bits ->
    exists w r', forall X, read_loop r bits X = Ok (Z.lor (Z.shiftl X bits) w, r')))
    as Hind.
  cbv beta in Hind. apply (fun a b c => Hind a b c r bits 0 Hok); clear.
  - intros r0 bits0 _ _ Hle Hb. assert (bits0 = 0) as -> by lia.
    exists 0, r0. intros X. rewrite read_loop_eq. simpl.
    now rewrite Z.shiftl_0_r, Z.lor_0_r.
  - intros r0 bits0 _ _ Hpos Hend _. exists 0, r0. intros X.
    rewrite read_loop_eq. destruct (Z.gtb_spec bits0 0); [|lia].
    rewrite read_body_out by assumption. now rewrite Z.lor_0_r.
  - intros r0 bits0 _ b0 Hok0 Hpos Hb0 take r' _ Ht Ht8 Hok' IH _.
    destruct IH as (w & r'' & Hw); [lia|].
    exists (Z.lor (Z.shiftl (chunk_of b0 (bit_index r0) take) (bits0 - take)) w), r''.
    intros X. rewrite read_loop_eq. destruct (Z.gtb_spec bits0 0); [|lia].
    rewrite (read_body_in r0 bits0 X b0) by assumption. fold take. fold r'.
    rewrite Hw. rewrite Z.shiftl_lor, Z.shiftl_shiftl by lia.
    replace (take + (bits0 - take)) with bits0 by lia.
    now rewrite Z.lor_assoc.
Qed.

(** The bits taken from a byte in one go are the bits taken in two. *)
Lemma chunk_of_split b0 bit a t :
  0 <= bit -> 0 <= a -> 0 <= t -> bit + a + t <= 8 ->
  chunk_of b0 bit (a + t) =
  Z.lor (Z.shiftl (chunk_of b0 bit a) t) (chunk_of b0 (bit + a) t).
Proof.
  intros Hbit Ha Ht Hle. unfold chunk_of. rewrite !Z.shiftl_1_l.
  replace (2 ^ (a + t) - 1) with (Z.ones (a + t)) by (rewrite Z.ones_equiv; lia).
  replace (2 ^ a - 1) with (Z.ones a) by (rewrite Z.ones_equiv; lia).
  replace (2 ^ t - 1) with (Z.ones t) by (rewrite Z.ones_equiv; lia).
  rewrite !Z.land_ones by lia.
  set (B := Z.land (byte_val b0) 255).
  replace (8 - bit - a) with (t + (8 - bit - (a + t))) by lia.
  replace (8 - (bit + a) - t) with (8 - bit - (a + t)) by lia.
  set (s := 8 - bit - (a + t)).
  replace (Z.shiftr B (t + s)) with (Z.shiftr (Z.shiftr B s) t)
    by (rewrite Z.shiftr_shiftr by lia; f_equal; lia).
  set (X := Z.shiftr B s).
  apply Z.bits_inj'. intros n Hn.
  rewrite Z.lor_spec, Z.shiftl_spec by assumption.
  destruct (Z_lt_le_dec n t) as [Hlt|Hge].
  - rewrite (Z.testbit_neg_r _ (n - t)) by lia.
    rewrite !Z.mod_pow2_bits_low by lia. reflexivity.
  - rewrite (Z.mod_pow2_bits_high X t n) by lia. rewrite orb_false_r.
    destruct (Z_lt_le_dec n (a + t)) as [Hlt|Hge'].
    + rewrite !Z.mod_pow2_bits_low by lia.
      rewrite Z.shiftr_spec by lia. f_equal. lia.
    + rewrite !Z.mod_pow2_bits_high by lia. reflexivity.
Qed.

(** A loop over [a + b] bits is a loop over [a] bits followed by a loop over
    [b] bits that starts from its result. *)
Lemma read_loop_split r a result :
  cursor_ok r -> 0 <= a ->
  forall b, 0 <= b ->
    read_loop r (a + b) result =
    '(v, r1) ← read_loop r a result; read_loop r1 b v.
Proof.
  intros Hok.
  apply (read_loop_ind_ok (fun r a result o => 0 <= a -> forall b, 0 <= b ->
    read_loop r (a + b) result = '(v, r1) ← o; read_loop r1 b v));
    [| | |exact Hok]; clear.
  - intros r a result _ Hle Ha b Hb. assert (a = 0) as -> by lia. reflexivity.
  - intros r a result _ Hpos Hend _ b Hb. run.
    rewrite (read_loop_eq r (a + b)). destruct (Z.gtb_spec (a + b) 0); [|lia].
    rewrite read_body_out by assumption.
    rewrite (read_loop_eq r b). destruct (Z.gtb_spec b 0).
    + rewrite read_body_out by assumption. rewrite Z.shiftl_shiftl by lia.
      reflexivity.
    + assert (b = 0) as -> by lia. now rewrite Z.add_0_r.
  - intros r a result b0 Hok Hpos Hb0 take r' result' Ht Ht8 Hok' IH _ b Hb.
    rewrite (read_loop_eq r (a + b)). destruct (Z.gtb_spec (a + b) 0); [|lia].
    rewrite (read_body_in r (a + b) result b0) by (assumption || lia).
    destruct (Z_le_gt_dec (8 - bit_index r) a) as [Hfull|Hpart].
    + (* the first read uses up the byte *)
      replace (Z.min (8 - bit_index r) (a + b)) with take by lia.
      fold r'. fold result'.
      replace (a + b - take) with (a - take + b) by lia.
      apply IH; lia.
    + (* the first read ends inside the byte *)
      assert (Ea : take = a) by lia.
      subst result'. subst r'. rewrite Ea in *.
      replace (a - a) with 0 by lia.
      rewrite (read_loop_eq (advance r a) 0). cbn [Z.gtb Z.compare]. run.
      destruct (Z.eqb_spec b 0) as [->|Hb0'].
      * rewrite Z.add_0_r.
        replace (Z.min (8 - bit_index r) a) with a by lia.
        replace (a - a) with 0 by lia.
        rewrite !(read_loop_eq _ 0). reflexivity.
      * assert (Hadv : advance r a = mkBitReader (data r) (byte_index r) (bit_index r + a)).
        { unfold advance. destruct (Z.eqb_spec (bit_index r + a) 8); [lia | reflexivity]. }
        rewrite Hadv in *.
        rewrite (read_loop_eq _ b). destruct (Z.gtb_spec b 0); [|lia].
        rewrite (read_body_in _ b _ b0) by (assumption || lia).
        cbn [bit_index byte_index data].
        set (t := Z.min (8 - (bit_index r + a)) b).
        replace (Z.min (8 - bit_index r) (a + b)) with (a + t) by lia.
        replace (a + b - (a + t)) with (b - t) by lia.
        assert (Hr : advance r (a + t) =
                     advance (mkBitReader (data r) (byte_index r) (bit_index r + a)) t).
        { unfold advance. cbn [bit_index byte_index data].
          rewrite Z.add_assoc. reflexivity. }
        rewrite Hr. f_equal.
        destruct Hok as [_ Hbit].
        rewrite (chunk_of_split b0 (bit_index r) a t) by lia.
        rewrite Z.shiftl_lor, Z.shiftl_shiftl, Z.lor_assoc by lia. reflexivity.
Qed.

(** X1: two consecutive reads of [a] and [b] bits are one read of [a + b]
    bits: the same final cursor, and the value of the first read shifted
    left by [b] and or-ed with the value of the second.  No bit is skipped or
    read twice, also when the reads run past the end of the buffer. *)
Theorem consecutive_reads_compose r a b va r1 vb r2 :
  cursor_ok r -> 0 <= a -> 0 <= b ->
  read a r = Ok (va, r1) -> read b r1 = Ok (vb, r2) ->
  read (a + b) r = Ok (Z.lor (Z.shiftl va b) vb, r2).
Proof.
  intros Hok Ha Hb Hra Hrb.
  destruct (read_ok r a Hok Ha) as (? & ? & E & Hok1 & _).
  rewrite Hra in E. injection E as <- <-.
  rewrite read_is_loop in Hra, Hrb |- * by lia.
  rewrite read_loop_split, Hra by assumption. run.
  destruct (read_loop_accumulates r1 b Hok1 Hb) as (w & r' & Hw).
  rewrite (Hw 0) in Hrb. rewrite Z.shiftl_0_l, Z.lor_0_l in Hrb.
  injection Hrb as <- <-. apply Hw.
Qed.

Lemma consecutive_reads_compose_witness :
  read 5 (new_reader [xab; xcd]) = Ok (21, mkBitReader [xab; xcd] 0 5) /\
  read 7 (mkBitReader [xab; xcd] 0 5) = Ok (60, mkBitReader [xab; xcd] 1 4) /\
  read (5 + 7) (new_reader [xab; xcd]) =
    Ok (Z.lor (Z.shiftl 21 7) 60, mkBitReader [xab; xcd] 1 4).
Proof.
  assert (H1 : read 5 (new_reader [xab; xcd]) = Ok (21, mkBitReader [xab; xcd] 0 5))
    by (vm_compute; reflexivity).
  assert (H2 : read 7 (mkBitReader [xab; xcd] 0 5) = Ok (60, mkBitReader [xab; xcd] 1 4))
    by (vm_compute; reflexivity).
  split; [exact H1|]. split; [exact H2|].
  apply (consecutive_reads_compose (new_reader [xab; xcd]) 5 7 21
           (mkBitReader [xab; xcd] 0 5) 60 (mkBitReader [xab; xcd] 1 4));
    [unfold cursor_ok; simpl; lia | lia | lia | exact H1 | exact H2].
Defined.

(** A read of [k + 1] bits within the buffer: the [k] first bits, then the
    bit under the cursor. *)
Lemma read_succ r k v r' :
  cursor_ok r -> 0 <= k -> bitpos r + k + 1 <= 8 * len (data r) ->
  read (k + 1) r = Ok (v, r') ->
  exists vk r1, read k r = Ok (vk, r1) /\
    v = Z.lor (Z.shiftl vk 1) (Z.b2z (bit_at (data r) (bitpos r + k))).
Proof.
  intros Hok Hk Hin Hr.
  destruct (read_ok r k Hok Hk) as (vk & r1 & E1 & Hok1 & Hd1 & _ & Hx1 & _).
  destruct (read_bool_ok r1 Hok1) as (f & r2 & E2 & _ & _ & _ & Hx2).
  destruct Hx2 as [Hf _]; [rewrite Hd1, Hx1; lia|].
  rewrite Hd1, Hx1 in Hf by lia.
  unfold read_bool in E2.
  destruct (read_ok r1 1 Hok1) as (vb & r2' & E3 & _ & _ & _ & _ & Hvb); [lia|].
  rewrite E3 in E2. cbn [mbind outcome_bind] in E2. injection E2 as Hf' <-.
  exists vk, r1. split; [exact E1|].
  rewrite read_is_loop in Hr, E1, E3 by lia.
  rewrite read_loop_split, E1 in Hr by (assumption || lia).
  cbn [mbind outcome_bind] in Hr.
  destruct (read_loop_accumulates r1 1 Hok1) as (w & r3 & Hw); [lia|].
  rewrite (Hw 0), Z.shiftl_0_l, Z.lor_0_l in E3. injection E3 as -> ->.
  rewrite Hw in Hr. injection Hr as <- _.
  f_equal. rewrite <- Hf, <- Hf'. change (2 ^ 1) with 2 in Hvb.
  destruct (Z.eqb_spec vb 1) as [->|]; simpl; lia.
Qed.

(** X2: a read of [n] bits that lies within the buffer returns the [n] bits
    at the cursor, most significant first: bit [i] of the value is the bit at
    position [bitpos + n - 1 - i] of the buffer. *)
Theorem read_returns_the_addressed_bits r n v r' :
  cursor_ok r -> 0 <= n -> bitpos r + n <= 8 * len (data r) ->
  read n r = Ok (v, r') ->
  forall i, 0 <= i < n -> Z.testbit v i = bit_at (data r) (bitpos r + n - 1 - i).
Proof.
  intros Hok Hn. revert v r'.
  pattern n. apply natlike_ind; [| |exact Hn]; clear n Hn.
  - intros v r' _ _ i Hi. lia.
  - intros k Hk IH v r' Hin Hr i Hi. unfold Z.succ in *.
    destruct (read_succ r k v r' Hok Hk) as (vk & r1 & Ek & ->); [lia | exact Hr|].
    rewrite Z.lor_spec, Z.shiftl_spec by lia.
    destruct (Z.eqb_spec i 0) as [->|Hi0].
    + rewrite Z.testbit_neg_r by lia. simpl.
      replace (bitpos r + (k + 1) - 1 - 0) with (bitpos r + k) by lia.
      destruct (bit_at (data r) (bitpos r + k)); reflexivity.
    + rewrite (IH vk r1) by (lia || assumption).
      replace (Z.testbit (Z.b2z _) i) with false.
      * rewrite orb_false_r. f_equal. lia.
      * destruct (bit_at (data r) (bitpos r + k)); simpl.
        -- symmetry. apply (Z.bits_above_log2 1 i); simpl; lia.
        -- symmetry. apply Z.bits_0.
Qed.

Lemma read_returns_the_addressed_bits_witness :
  read 12 (new_reader [xab; xcd]) = Ok (0xabc, mkBitReader [xab; xcd] 1 4) /\
  forall i, 0 <= i < 12 ->
    Z.testbit 0xabc i = bit_at [xab; xcd] (bitpos (new_reader [xab; xcd]) + 12 - 1 - i).
Proof.
  assert (H : read 12 (new_reader [xab; xcd]) = Ok (0xabc, mkBitReader [xab; xcd] 1 4))
    by (vm_compute; reflexivity).
  split; [exact H|].
  apply (read_returns_the_addressed_bits (new_reader [xab; xcd]) 12 0xabc
           (mkBitReader [xab; xcd] 1 4));
    [unfold cursor_ok; simpl; lia | lia | vm_compute; discriminate | exact H].
Defined.

(** ** The range of the decoded numbers *)

Lemma read_zigzag_bounds r n :
  cursor_ok r -> 1 <= n ->
  exists v r', read_zigzag n r = Ok (v, r') /\
    cursor_ok r' /\ data r' = data r /\ bitpos r <= bitpos r' /\
    - 2 ^ (n - 1) <= v < 2 ^ (n - 1).
Proof.
  intros Hok Hn.
  destruct (read_ok r n Hok) as (u & r' & E & Hok' & Hd & Hp & _ & Hu); [lia|].
  unfold read_zigzag. rewrite E. run.
  eexists _, r'. split; [reflexivity|]. split; [exact Hok'|]. split; [exact Hd|].
  split; [lia|]. rewrite zigzag_closed_form by lia.
  replace n with (Z.succ (n - 1)) in Hu by lia. rewrite Z.pow_succ_r in Hu by lia.
  pose proof (Z.div_mod u 2). pose proof (Z.mod_pos_bound u 2).
  destruct (Z.even u); lia.
Qed.

(** X3: [read_zigzag(n)] with [n >= 1] always returns, and its result is a
    signed [n]-bit number: it lies in [-2^(n-1), 2^(n-1)). *)
Theorem read_zigzag_range r n :
  cursor_ok r -> 1 <= n ->
  exists v r', read_zigzag n r = Ok (v, r') /\
    cursor_ok r' /\ data r' = data r /\ bitpos r <= bitpos r' /\
    - 2 ^ (n - 1) <= v < 2 ^ (n - 1).
Proof. exact (read_zigzag_bounds r n). Qed.

Lemma read_zigzag_range_witness :
  exists v r', read_zigzag 6 (new_reader [xfc]) = Ok (v, r') /\
    cursor_ok r' /\ data r' = [xfc] /\ 0 <= bitpos r' /\ - 2 ^ 5 <= v < 2 ^ 5.
Proof.
  apply (read_zigzag_range (new_reader [xfc]) 6); [unfold cursor_ok; simpl; lia | lia].
Defined.

(** ** Blocks of a micro-cube *)

Lemma resolve_state_cases l2g gp lid :
  0 <= lid -> Forall (fun g => 0 <= g) l2g ->
  (lid < len l2g /\ exists s, resolve_state l2g gp lid = Ok s /\
     (s = "INVALID"%string \/ s ∈ gp)) \/
  (len l2g <= lid /\ resolve_state l2g gp lid = Raise IndexError).
Proof.
  intros Hlid Hpos. destruct (Z_lt_le_dec lid (len l2g)) as [Hlt|Hge].
  - left. split; [exact Hlt|].
    destruct (lookup_in_range l2g lid) as [g Hg]; [lia|].
    assert (0 <= g) by (rewrite Forall_forall in Hpos; apply Hpos;
                        eapply list_elem_of_lookup_2, Hg).
    destruct (resolve_state_total l2g gp lid g (getitem_lookup _ _ _ Hlid Hg))
      as (s & Hs & Hinv & Hin); [assumption|].
    exists s. split; [exact Hs|].
    destruct (Z_lt_le_dec g (len gp)) as [Hg1|Hg2].
    + right. eapply list_elem_of_lookup_2, Hin, Hg1.
    + left. now apply Hinv.
  - right. split; [exact Hge|]. unfold resolve_state, getitem.
    destruct (Z.ltb_spec lid 0); [lia|]. destruct (Z.ltb_spec lid 0); [lia|].
    rewrite lookup_ge_None_2 by (unfold len in Hge; lia). reflexivity.
Qed.

(** One iteration of the block loop, whatever the local palette: the three
    fields are read without raising, and only resolving the local id can
    raise. *)
Lemma decode_block_reads gp sy ps bpi l2g r ly lxz lid blocks :
  cursor_ok r -> 0 <= bpi -> 0 <= lxz < 256 -> 0 <= lid ->
  exists r' dy lxz' lid',
    cursor_ok r' /\ data r' = data r /\ bitpos r <= bitpos r' /\
    -32 <= dy <= 31 /\ 0 <= lxz' < 256 /\
    (lid' = lid \/ (1 < ps /\ 0 <= lid' < 2 ^ bpi)) /\
    decode_block gp sy ps bpi l2g (r, (ly, lxz, lid), blocks) =
    st ← resolve_state l2g gp lid';
    Ok (r', (ly + dy, lxz', lid'),
        blocks ++ [mkBlockChange (Z.land lxz' 15) (Z.shiftl sy 4 + (ly + dy))
                     (Z.shiftr lxz' 4) st]).
Proof.
  intros Hok Hbpi Hlxz Hlid. unfold decode_block.
  destruct (read_bool_ok r Hok) as (f1 & r1 & E1 & Hok1 & Hd1 & Hp1 & _).
  rewrite E1. run.
  assert (exists dy r2,
    (if f1 then read_zigzag 6 r1 else Ok (0, r1)) = Ok (dy, r2) /\
    cursor_ok r2 /\ data r2 = data r1 /\ bitpos r1 <= bitpos r2 /\ -32 <= dy <= 31)
    as (dy & r2 & E2 & Hok2 & Hd2 & Hp2 & Hdy).
  { destruct f1.
    - destruct (read_zigzag_bounds r1 6 Hok1) as (v & r2 & H); [lia|].
      exists v, r2. change (2 ^ (6 - 1)) with 32 in H.
      destruct H as (H1 & H2 & H3 & H4 & H5).
      split; [exact H1|]. split; [exact H2|]. split; [exact H3|]. split; lia.
    - exists 0, r1. repeat split; try apply Hok1; lia. }
  rewrite E2. run.
  destruct (read_bool_ok r2 Hok2) as (f2 & r3 & E3 & Hok3 & Hd3 & Hp3 & _).
  rewrite E3. run.
  assert (exists v r4,
    (if f2 then read 8 r3 else Ok (lxz, r3)) = Ok (v, r4) /\
    cursor_ok r4 /\ data r4 = data r3 /\ bitpos r3 <= bitpos r4 /\ 0 <= v < 256)
    as (v & r4 & E4 & Hok4 & Hd4 & Hp4 & Hv).
  { destruct f2.
    - destruct (read_ok r3 8 Hok3) as (v & r4 & Hr & Hok4 & Hd4 & Hp4 & _ & Hv); [lia|].
      exists v, r4. change (2 ^ 8) with 256 in Hv.
      split; [exact Hr|]. split; [exact Hok4|]. split; [exact Hd4|]. split; lia.
    - exists lxz, r3. repeat split; try apply Hok3; lia. }
  rewrite E4. run.
  assert (exists lid' r5,
    (if ps >? 1
     then '(flag, reader) ← read_bool r4;
          (if flag : bool then read bpi reader else Ok (lid, reader))
     else Ok (lid, r4)) = Ok (lid', r5) /\
    cursor_ok r5 /\ data r5 = data r4 /\ bitpos r4 <= bitpos r5 /\
    (lid' = lid \/ (1 < ps /\ 0 <= lid' < 2 ^ bpi)))
    as (lid' & r5 & E5 & Hok5 & Hd5 & Hp5 & Hl).
  { destruct (Z.gtb_spec ps 1) as [Hps|Hps].
    - destruct (read_bool_ok r4 Hok4) as (f3 & r5 & E5 & Hok5 & Hd5 & Hp5 & _).
      rewrite E5. run. destruct f3.
      + destruct (read_ok r5 bpi Hok5 Hbpi)
          as (w & r6 & Hr & Hok6 & Hd6 & Hp6 & _ & Hw).
        exists w, r6. split; [exact Hr|]. split; [exact Hok6|].
        split; [congruence|]. split; [lia|]. right. split; [lia | exact Hw].
      + exists lid, r5. split; [reflexivity|]. split; [exact Hok5|].
        split; [exact Hd5|]. split; [lia|]. now left.
    - exists lid, r4. split; [reflexivity|]. split; [exact Hok4|].
      split; [reflexivity|]. split; [lia|]. now left. }
  rewrite E5. run.
  exists r5, dy, v, lid'. split; [exact Hok5|]. split; [congruence|].
  split; [lia|]. split; [exact Hdy|]. split; [exact Hv|]. split; [exact Hl|].
  reflexivity.
Qed.

Lemma block_coordinates lxz :
  0 <= lxz < 256 -> 0 <= Z.land lxz 15 < 16 /\ 0 <= Z.shiftr lxz 4 < 16.
Proof.
  intros H. change 15 with (Z.ones 4). rewrite Z.land_ones by lia.
  rewrite Z.shiftr_div_pow2 by lia. change (2 ^ 4) with 16.
  pose proof (Z.mod_pos_bound lxz 16). pose proof (Z.div_mod lxz 16). lia.
Qed.

Section BlockLoop.

Variables (gp : list string) (sy ps bpi : Z) (l2g : list Z).
Hypothesis Hbpi : 0 <= bpi.
Hypothesis Hl2g : Forall (fun g => 0 <= g) l2g.

Lemma block_loop_blocks k :
  forall i r ly lxz lid blocks,
    cursor_ok r -> 0 <= lxz < 256 -> 0 <= lid ->
    match for_loop k i (fun _ => decode_block gp sy ps bpi l2g)
            (r, (ly, lxz, lid), blocks) with
    | Ok (r', _, blocks') =>
        cursor_ok r' /\ data r' = data r /\ bitpos r <= bitpos r' /\
        exists new, blocks' = blocks ++ new /\ length new = k /\
          Forall (fun b => 0 <= x b < 16 /\ 0 <= z b < 16 /\
                           ly - 32 * Z.of_nat k <= y b - sy * 16 <= ly + 31 * Z.of_nat k /\
                           (state b = "INVALID"%string \/ state b ∈ gp)) new
    | Raise e => e = IndexError /\ ~ ids_fit ps bpi l2g lid
    end.
Proof.
  induction k as [|k IH]; intros i r ly lxz lid blocks Hok Hlxz Hlid.
  - simpl. split; [exact Hok|]. split; [reflexivity|]. split; [lia|].
    exists []. rewrite app_nil_r. repeat split. constructor.
  - cbn [for_loop].
    destruct (decode_block_reads gp sy ps bpi l2g r ly lxz lid blocks Hok Hbpi Hlxz Hlid)
      as (r1 & dy & lxz1 & lid1 & Hok1 & Hd1 & Hp1 & Hdy & Hlxz1 & Hlid1 & ->).
    assert (Hlid1' : 0 <= lid1) by lia.
    assert (Hfit : ids_fit ps bpi l2g lid -> ids_fit ps bpi l2g lid1).
    { unfold ids_fit. destruct Hlid1 as [->|[Hps Hl]]; [tauto|]. intros [_ H].
      split; [|exact H]. specialize (H Hps). lia. }
    destruct (resolve_state_cases l2g gp lid1 Hlid1' Hl2g)
      as [(Hin & s & -> & Hs)|(Hout & ->)]; run.
    + specialize (IH (i + 1) r1 (ly + dy) lxz1 lid1
                    (blocks ++ [mkBlockChange (Z.land lxz1 15)
                                  (Z.shiftl sy 4 + (ly + dy)) (Z.shiftr lxz1 4) s])
                    Hok1 Hlxz1 Hlid1').
      destruct (for_loop k _ _ _) as [[[r' st] blocks']|e].
      * destruct IH as (Hok' & Hd' & Hp' & new & -> & Hlen & Hall).
        split; [exact Hok'|]. split; [congruence|]. split; [lia|].
        eexists (_ :: new). split; [now rewrite <- app_assoc|].
        split; [simpl; now rewrite Hlen|].
        destruct (block_coordinates lxz1 Hlxz1) as [Hx Hz].
        constructor.
        -- cbn [x y z state]. rewrite Z.shiftl_mul_pow2 by lia.
           change (2 ^ 4) with 16. repeat split; try lia. exact Hs.
        -- eapply Forall_impl; [exact Hall|]. cbv beta.
           intros b (Hbx & Hbz & Hby & Hbs). repeat split; try lia. exact Hbs.
      * destruct IH as [-> Hn]. split; [reflexivity|]. tauto.
    + split; [reflexivity|]. intros Hf. apply Hfit in Hf. unfold ids_fit in Hf. lia.
Qed.

End BlockLoop.

Lemma local_palette_loop k :
  forall i r acc, cursor_ok r ->
  exists r' new,
    for_loop k i (fun (_ : Z) '(reader, acc) =>
        '(gid, reader) ← read 16 reader; Ok (reader, acc ++ [gid])) (r, acc) =
    Ok (r', acc ++ new) /\
    length new = k /\ Forall (fun g => 0 <= g) new /\
    cursor_ok r' /\ data r' = data r /\ bitpos r <= bitpos r'.
Proof.
  induction k as [|k IH]; intros i r acc Hok.
  - exists r, []. simpl. rewrite app_nil_r. repeat split; try apply Hok; try lia.
    constructor.
  - cbn [for_loop].
    destruct (read_ok r 16 Hok) as (g & r1 & E & Hok1 & Hd1 & Hp1 & _ & Hg); [lia|].
    rewrite E. run.
    destruct (IH (i + 1) r1 (acc ++ [g]) Hok1) as (r' & new & E' & Hlen & Hall & Hok' & Hd' & Hp').
    rewrite E'. exists r', (g :: new). split; [now rewrite <- app_assoc|].
    split; [simpl; now rewrite Hlen|]. split; [constructor; [lia | exact Hall]|].
    split; [exact Hok'|]. split; [congruence | lia].
Qed.

Lemma bits_per_id_nonneg ps : 0 <= bits_per_id_of ps.
Proof.
  unfold bits_per_id_of. destruct (ps >? 1); [|lia].
  unfold bit_length. destruct (ps - 1); lia.
Qed.

(** What [decode_micro_cube] does from a cursor satisfying the invariant,
    with the local palette size it reads. *)
Lemma decode_micro_cube_cases r gp mx my mz sy :
  cursor_ok r ->
  exists ps r1, read 8 r = Ok (ps, r1) /\ 0 <= ps < 256 /\
    match decode_micro_cube r gp mx my mz sy with
    | Ok (blocks, r') =>
        cursor_ok r' /\ data r' = data r /\ bitpos r <= bitpos r' /\
        (length blocks <= 127)%nat /\ Forall (cube_block_ok gp sy) blocks
    | Raise e => e = IndexError /\ 1 < ps < 2 ^ bits_per_id_of ps
    end.
Proof.
  intros Hok. unfold decode_micro_cube.
  destruct (read_ok r 8 Hok) as (ps & r1 & E & Hok1 & Hd1 & Hp1 & _ & Hps); [lia|].
  change (2 ^ 8) with 256 in Hps.
  exists ps, r1. split; [exact E|]. split; [exact Hps|]. rewrite E. run.
  destruct (Z.eqb_spec ps 0) as [->|Hne].
  { split; [exact Hok1|]. split; [exact Hd1|]. split; [lia|].
    split; [simpl; lia | constructor]. }
  unfold for_range.
  destruct (local_palette_loop (Z.to_nat ps) 0 r1 [] Hok1)
    as (r2 & l2g & E2 & Hlen & Hall & Hok2 & Hd2 & Hp2).
  rewrite E2. run. cbn [app].
  destruct (read_ok r2 7 Hok2) as (n & r3 & E3 & Hok3 & Hd3 & Hp3 & _ & Hn); [lia|].
  change (2 ^ 7) with 128 in Hn. rewrite E3. run.
  pose proof (block_loop_blocks gp sy ps (bits_per_id_of ps) l2g
                (bits_per_id_nonneg ps) Hall (Z.to_nat n) 0 r3 0 0 0 [] Hok3) as H.
  destruct (for_loop (Z.to_nat n) 0 _ _) as [[[r' st] blocks]|e]; run.
  - destruct H as (Hok' & Hd' & Hp' & new & -> & Hl & Hf); [lia | lia|].
    split; [exact Hok'|]. split; [congruence|]. split; [lia|].
    cbn [app]. split; [lia|].
    eapply Forall_impl; [exact Hf|]. cbv beta. unfold cube_block_ok.
    intros b (Hbx & Hbz & Hby & Hbs). repeat split; try lia. exact Hbs.
  - destruct H as [-> Hfit]; [lia | lia|]. split; [reflexivity|].
    unfold ids_fit, len in Hfit. rewrite Hlen in Hfit. lia.
Qed.

(** X4: from a cursor satisfying the invariant, [decode_micro_cube] returns
    or raises [IndexError], nothing else.  When it returns, there are at most
    127 blocks, each with [x] and [z] in 0..15, [y] within [-4064, 3937] of
    the section base [sy * 16] and a state that is ["INVALID"] or an entry of
    the global palette, and the reader is left over the same buffer, not
    before where it was. *)
Theorem micro_cube_blocks_are_well_formed r gp mx my mz sy :
  cursor_ok r ->
  match decode_micro_cube r gp mx my mz sy with
  | Ok (blocks, r') =>
      cursor_ok r' /\ data r' = data r /\ bitpos r <= bitpos r' /\
      (length blocks <= 127)%nat /\ Forall (cube_block_ok gp sy) blocks
  | Raise e => e = IndexError
  end.
Proof.
  intros Hok.
  destruct (decode_micro_cube_cases r gp mx my mz sy Hok) as (ps & r1 & _ & _ & H).
  destruct (decode_micro_cube r gp mx my mz sy) as [[blocks r']|e];
    [exact H | apply H].
Qed.

Lemma micro_cube_blocks_are_well_formed_witness :
  let d := [x01; x00; x00; x05; x2a; xe6; x00] in
  exists blocks r',
    decode_micro_cube (new_reader d) ["stone"%string] 0 0 0 2 = Ok (blocks, r') /\
    length blocks = 2%nat /\ Forall (cube_block_ok ["stone"%string] 2) blocks.
Proof.
  intros d.
  pose proof (micro_cube_blocks_are_well_formed (new_reader d) ["stone"%string] 0 0 0 2) as H.
  destruct (decode_micro_cube (new_reader d) ["stone"%string] 0 0 0 2)
    as [[blocks r']|e] eqn:E; [|vm_compute in E; discriminate E].
  exists blocks, r'. split; [reflexivity|].
  split; [vm_compute in E; injection E as <- _; reflexivity|].
  apply H. unfold cursor_ok. simpl. lia.
Defined.

(** X5: a micro-cube whose local palette size is a power of two (1, 2, 4,
    ..., 128) never raises: every local id the stream can encode selects an
    entry of the local palette. *)
Theorem power_of_two_palette_never_raises r gp mx my mz sy ps r1 j :
  cursor_ok r -> read 8 r = Ok (ps, r1) -> 0 <= j -> ps = 2 ^ j ->
  exists blocks r', decode_micro_cube r gp mx my mz sy = Ok (blocks, r').
Proof.
  intros Hok Hr Hj Hps.
  destruct (decode_micro_cube_cases r gp mx my mz sy Hok) as (ps' & r1' & E & _ & H).
  rewrite Hr in E. injection E as <- <-.
  destruct (decode_micro_cube r gp mx my mz sy) as [[blocks r']|e]; [now eauto|].
  exfalso. destruct H as [_ [H1 H2]].
  destruct (bits_per_id_bounds ps H1) as [Hb [Hlo _]].
  set (b := bits_per_id_of ps) in *. rewrite Hps in Hlo, H2.
  apply (Z.pow_lt_mono_r_iff 2) in Hlo; try lia.
  apply (Z.pow_lt_mono_r_iff 2) in H2; lia.
Qed.

Lemma power_of_two_palette_never_raises_witness :
  exists blocks r',
    decode_micro_cube
      (new_reader [x02; x00; x00; x00; x07; x02; x78]) ["stone"%string] 0 0 0 0 =
    Ok (blocks, r').
Proof.
  apply (power_of_two_palette_never_raises
           (new_reader [x02; x00; x00; x00; x07; x02; x78]) ["stone"%string] 0 0 0 0
           2 (mkBitReader [x02; x00; x00; x00; x07; x02; x78] 1 0) 1);
    [unfold cursor_ok; simpl; lia | vm_compute; reflexivity | lia | reflexivity].
Defined.

(** ** Blocks of a chunk *)

Lemma cube_block_ok_in_chunk gp sy b :
  -32768 <= sy <= 32767 -> cube_block_ok gp sy b -> block_ok gp b.
Proof.
  unfold cube_block_ok, block_ok. intros Hsy (Hx & Hz & Hy & Hs).
  repeat split; try lia. exact Hs.
Qed.

Lemma cube_calls_blocks gp sy cubes :
  -32768 <= sy <= 32767 ->
  forall r, cursor_ok r ->
    match cube_calls gp sy cubes r with
    | Ok (ress, r') => cursor_ok r' /\ data r' = data r /\ Forall (Forall (block_ok gp)) ress
    | Raise e => e = IndexError
    end.
Proof.
  intros Hsy. induction cubes as [|[[mx my] mz] cubes IH]; intros r Hok.
  - simpl. split; [exact Hok|]. split; [reflexivity | constructor].
  - rewrite cube_calls_cons.
    pose proof (decode_micro_cube_cases r gp mx my mz sy Hok) as (ps & r1 & _ & _ & H).
    destruct (decode_micro_cube r gp mx my mz sy) as [[res r']|e]; run; [|apply H].
    destruct H as (Hok' & Hd' & _ & _ & Hf). specialize (IH r' Hok').
    destruct (cube_calls gp sy cubes r') as [[ress r'']|e]; run; [|exact IH].
    destruct IH as (Hok'' & Hd'' & Hall).
    split; [exact Hok''|]. split; [congruence|]. constructor; [|exact Hall].
    eapply Forall_impl; [exact Hf|]. intros b. now apply cube_block_ok_in_chunk.
Qed.

Lemma section_calls_blocks gp n :
  forall r, cursor_ok r ->
    match section_calls gp n r with
    | Ok (secs, r') =>
        cursor_ok r' /\ data r' = data r /\ Forall (Forall (Forall (block_ok gp))) secs
    | Raise e => e = IndexError
    end.
Proof.
  induction n as [|n IH]; intros r Hok.
  - simpl. split; [exact Hok|]. split; [reflexivity | constructor].
  - rewrite section_calls_succ.
    destruct (read_zigzag_bounds r 16 Hok) as (sy & r1 & E & Hok1 & Hd1 & _ & Hsy); [lia|].
    change (2 ^ (16 - 1)) with 32768 in Hsy. rewrite E. run.
    pose proof (cube_calls_blocks gp sy cube_order ltac:(lia) r1 Hok1) as H.
    destruct (cube_calls gp sy cube_order r1) as [[ress r2]|e]; run; [|exact H].
    destruct H as (Hok2 & Hd2 & Hall). specialize (IH r2 Hok2).
    destruct (section_calls gp n r2) as [[secs r3]|e]; run; [|exact IH].
    destruct IH as (Hok3 & Hd3 & Hall3).
    split; [exact Hok3|]. split; [congruence|]. constructor; assumption.
Qed.

Lemma Forall_concat {A} (P : A -> Prop) (ls : list (list A)) :
  Forall (Forall P) ls -> Forall P (concat ls).
Proof.
  induction 1 as [|l ls Hl _ IH]; simpl; [constructor|].
  apply Forall_app. split; assumption.
Qed.

Lemma decode_instructions_blocks gp inst :
  match decode_instructions gp inst with
  | Ok all_blocks => Forall (block_ok gp) all_blocks
  | Raise e => e = IndexError
  end.
Proof.
  rewrite decode_instructions_calls.
  assert (Hok : cursor_ok (new_reader inst)) by (unfold cursor_ok; simpl; lia).
  destruct (read_ok (new_reader inst) 16 Hok) as (sc & r0 & E & Hok0 & _); [lia|].
  rewrite E. run.
  pose proof (section_calls_blocks gp (Z.to_nat sc) r0 Hok0) as H.
  destruct (section_calls gp (Z.to_nat sc) r0) as [[secs r']|e]; run; [|exact H].
  destruct H as (_ & _ & Hall). apply Forall_concat.
  apply Forall_fmap. eapply Forall_impl; [exact Hall|]. intros sec. apply Forall_concat.
Qed.

(** X6: every block of a chunk that [decode_chunk] returns has [x] and [z]
    in 0..15, [y] in [-528352, 528209] and a state that is ["INVALID"] or
    an entry of the chunk's own global palette. *)
Theorem chunk_blocks_are_well_formed mapping f c :
  decode_chunk mapping f = Ok (Some c) ->
  Forall (block_ok (palette c)) (blocks c).
Proof.
  intros Hc. destruct (decode_chunk_blocks mapping f c Hc) as [inst Hi].
  pose proof (decode_instructions_blocks (palette c) inst) as H.
  rewrite Hi in H. exact H.
Qed.

Lemma chunk_blocks_are_well_formed_witness :
  Forall (block_ok (palette example_chunk)) (blocks example_chunk).
Proof.
  apply (chunk_blocks_are_well_formed {[ 42 := "stone_stairs"%string ]} example_payload).
  vm_compute. reflexivity.
Defined.

(** ** The fields of a chunk *)

Section HeaderFields.

Context (mapping : gmap Z string).

(** The palette loop builds the display strings of its entries, in order. *)
Lemma palette_loop_names k :
  forall i entries rest gp, length entries = (3 * k)%nat ->
    for_loop k i (fun _ => read_palette_entry mapping) (entries ++ rest, gp) =
    Ok (rest, gp ++ entry_names mapping entries).
Proof.
  induction k as [|k IH]; intros i entries rest gp Hlen.
  - destruct entries; [|simpl in Hlen; lia]. simpl. now rewrite app_nil_r.
  - destruct entries as [|a [|b [|c entries]]]; try (simpl in Hlen; lia).
    cbn [for_loop entry_names].
    change ((a :: b :: c :: entries) ++ rest) with (a :: b :: c :: entries ++ rest).
    rewrite palette_entry_ok. run.
    rewrite IH by (simpl in Hlen; lia). now rewrite <- app_assoc.
Qed.

Lemma entry_names_length entries k :
  length entries = (3 * k)%nat -> length (entry_names mapping entries) = k.
Proof.
  revert entries. induction k as [|k IH]; intros entries Hlen.
  - destruct entries; [reflexivity | simpl in Hlen; lia].
  - destruct entries as [|a [|b [|c entries]]]; try (simpl in Hlen; lia).
    cbn [entry_names length]. f_equal. apply IH. simpl in Hlen. lia.
Qed.

(** [decode_chunk] on a payload whose fixed-width header fields are all
    there: the instruction bytes and the block entity count are what follows
    the instruction length. *)
Lemma decode_chunk_framed ver psz entries ilen rest :
  length ver = 4%nat -> length psz = 4%nat ->
  length entries = (3 * Z.to_nat (be_uint psz))%nat -> length ilen = 4%nat ->
  decode_chunk mapping (cis4 ++ ver ++ psz ++ entries ++ ilen ++ rest) =
  let inst_data := take (Z.to_nat (be_uint ilen)) rest in
  let be_count_data := take 4 (drop (Z.to_nat (be_uint ilen)) rest) in
  be_count ← (if is_empty be_count_data then Ok 0 else unpack_I be_count_data);
  all_blocks ← decode_instructions (entry_names mapping entries) inst_data;
  Ok (Some (mkChunkRecord (be_uint ver) (entry_names mapping entries)
              all_blocks be_count)).
Proof.
  intros Hv Hp He Hi.
  rewrite decode_chunk_after_palette_size by assumption.
  unfold for_range. rewrite palette_loop_names by assumption. run. cbn [app].
  rewrite (f_read_app ilen) by (unfold len; lia).
  rewrite (unpack_I_ok ilen Hi). run.
  pose proof (be_uint_nonneg ilen).
  unfold f_read. destruct (Z.ltb_spec (be_uint ilen) 0); [lia|].
  change (4 <? 0) with false. cbv iota beta zeta. reflexivity.
Qed.

End HeaderFields.

(** X7: when a payload with complete header fields decodes, the record has
    the version as read, one palette entry per 3-byte entry, in order, each
    the mapped name (or [unknown_<id>]) with its facing suffix, and the
    block entity count that follows the instruction bytes (0 if nothing
    follows). *)
Theorem decoded_chunk_fields mapping ver psz entries ilen rest c :
  length ver = 4%nat -> length psz = 4%nat ->
  length entries = (3 * Z.to_nat (be_uint psz))%nat -> length ilen = 4%nat ->
  decode_chunk mapping (cis4 ++ ver ++ psz ++ entries ++ ilen ++ rest) = Ok (Some c) ->
  version c = be_uint ver /\
  palette c = entry_names mapping entries /\
  len (palette c) = be_uint psz /\
  be_count c = be_uint (take 4 (drop (Z.to_nat (be_uint ilen)) rest)).
Proof.
  intros Hv Hp He Hi. rewrite decode_chunk_framed by assumption. cbv zeta.
  set (tail := take 4 (drop (Z.to_nat (be_uint ilen)) rest)).
  assert (Hbe : forall n, (if is_empty tail then Ok 0 else unpack_I tail) = Ok n ->
                          n = be_uint tail).
  { destruct tail; cbn [is_empty]; [now intros n [= <-]|].
    unfold unpack_I. destruct (len (b :: tail) =? 4); [now intros n [= <-] | discriminate]. }
  destruct (if is_empty tail then Ok 0 else unpack_I tail) as [n|e]; run; [|discriminate].
  destruct (decode_instructions _ _) as [all|e]; run; [|discriminate].
  intros [= <-]. cbn [version palette be_count].
  split; [reflexivity|]. split; [reflexivity|].
  split; [|now apply Hbe].
  unfold len. rewrite (entry_names_length mapping entries _ He).
  pose proof (be_uint_nonneg psz). lia.
Qed.

Lemma decoded_chunk_fields_witness :
  version example_chunk = 1 /\
  palette example_chunk = entry_names {[ 42 := "stone_stairs"%string ]} [x00; x2a; x02] /\
  len (palette example_chunk) = 1 /\
  be_count example_chunk = 7.
Proof.
  apply (decoded_chunk_fields {[ 42 := "stone_stairs"%string ]}
           [x00; x00; x00; x01] [x00; x00; x00; x01] [x00; x2a; x02]
           [x00; x00; x00; x0a]
           [x00; x01; x00; x00; x01; x00; x00; x03; x2a; xe6; x00; x00; x00; x07]
           example_chunk); reflexivity.
Defined.

(** ** A reader at the end of its buffer *)

Lemma read_at_end r n :
  len (data r) <= byte_index r -> 0 <= n -> read n r = Ok (0, r).
Proof.
  intros Hend Hn. rewrite read_is_loop by assumption. rewrite read_loop_eq.
  destruct (Z.gtb_spec n 0); [|reflexivity].
  rewrite read_body_out by assumption. now rewrite Z.shiftl_0_l.
Qed.

(** A read that asks for all the bits that are left, or more, leaves the
    reader at the end of the buffer. *)
Lemma read_reaches_end r n v r' :
  cursor_ok r -> 0 <= n -> 8 * len (data r) <= bitpos r + n ->
  read n r = Ok (v, r') ->
  cursor_ok r' /\ data r' = data r /\ len (data r') <= byte_index r'.
Proof.
  intros Hok Hn Hall Hr.
  destruct (read_ok r n Hok Hn) as (? & ? & E & Hok' & Hd & _ & Hex & _).
  rewrite Hr in E. injection E as <- <-.
  split; [exact Hok'|]. split; [exact Hd|]. rewrite Hd.
  destruct (Z.eq_dec (bitpos r + n) (8 * len (data r))) as [Heq|Hne].
  - specialize (Hex ltac:(lia)). unfold cursor_ok, bitpos in *. lia.
  - rewrite read_is_loop in Hr by assumption.
    destruct (Z.eq_dec n 0) as [->|Hn0].
    { rewrite read_loop_eq in Hr. cbn [Z.gtb Z.compare] in Hr. injection Hr as _ <-.
      unfold cursor_ok, bitpos in *. lia. }
    destruct (read_loop_truncated r n 0 Hok) as (u & r2 & Hu & Hr2); [cbv zeta; lia|].
    rewrite Hr in Hr2. injection Hr2 as _ <-.
    destruct (Z_le_gt_dec (8 * len (data r) - bitpos r) 0) as [Hle|Hgt].
    + rewrite Z.max_l in Hu by lia. rewrite read_loop_eq in Hu.
      cbn [Z.gtb Z.compare] in Hu. injection Hu as _ <-.
      unfold cursor_ok, bitpos in *. lia.
    + rewrite Z.max_r in Hu by lia.
      destruct (read_loop_ok r (8 * len (data r) - bitpos r) 0 0 Hok)
        as (? & ? & E & Hok2 & _ & _ & Hex2 & _); [lia | lia | simpl; lia|].
      rewrite Hu in E. injection E as <- <-.
      specialize (Hex2 ltac:(lia)). unfold cursor_ok, bitpos in *. lia.
Qed.

Section AtEnd.

Variables (gp : list string) (r : BitReader).
Hypothesis Hend : len (data r) <= byte_index r.

Lemma decode_micro_cube_at_end mx my mz sy :
  decode_micro_cube r gp mx my mz sy = Ok ([], r).
Proof. unfold decode_micro_cube. rewrite read_at_end by (assumption || lia). reflexivity. Qed.

Lemma cube_calls_at_end sy cubes :
  exists ress, cube_calls gp sy cubes r = Ok (ress, r) /\ concat ress = [].
Proof.
  induction cubes as [|[[mx my] mz] cubes (ress & E & Hc)].
  - now exists [].
  - exists ([] :: ress). rewrite cube_calls_cons, decode_micro_cube_at_end. run.
    rewrite E. split; [reflexivity | exact Hc].
Qed.

Lemma section_calls_at_end n :
  exists secs, section_calls gp n r = Ok (secs, r) /\
    concat (map (@concat BlockChange) secs) = [].
Proof.
  induction n as [|n (secs & E & Hc)].
  - now exists [].
  - destruct (cube_calls_at_end 0 cube_order) as (ress & Er & Hr).
    exists (ress :: secs). rewrite section_calls_succ. unfold read_zigzag.
    rewrite read_at_end by (assumption || lia). run.
    change (Z.lxor (Z.shiftr 0 1) (- Z.land 0 1)) with 0.
    rewrite Er. run. rewrite E. split; [reflexivity|].
    cbn [map concat]. rewrite Hr, Hc. reflexivity.
Qed.

End AtEnd.

(** X8: a payload with complete header fields whose instruction stream stops
    within or right after the 16-bit section count decodes to a record with
    no block and block entity count 0, whatever number of sections the count
    announces: every later field reads as zero. *)
Theorem truncated_instructions_give_no_blocks mapping ver psz entries ilen inst :
  length ver = 4%nat -> length psz = 4%nat ->
  length entries = (3 * Z.to_nat (be_uint psz))%nat -> length ilen = 4%nat ->
  len inst <= 2 -> len inst <= be_uint ilen ->
  decode_chunk mapping (cis4 ++ ver ++ psz ++ entries ++ ilen ++ inst) =
  Ok (Some (mkChunkRecord (be_uint ver) (entry_names mapping entries) [] 0)).
Proof.
  intros Hv Hp He Hi H2 Hlen. rewrite decode_chunk_framed by assumption.
  cbv zeta. rewrite take_ge, drop_ge by (unfold len in Hlen; lia).
  cbn [take is_empty]. run.
  rewrite decode_instructions_calls.
  assert (Hok : cursor_ok (new_reader inst)) by (unfold cursor_ok; simpl; lia).
  destruct (read_ok (new_reader inst) 16 Hok) as (sc & r0 & E & _); [lia|].
  destruct (read_reaches_end (new_reader inst) 16 sc r0 Hok) as (_ & _ & Hend);
    [lia | unfold bitpos; simpl; lia | exact E|].
  rewrite E. run.
  destruct (section_calls_at_end (entry_names mapping entries) r0 Hend (Z.to_nat sc))
    as (secs & Es & Hc).
  rewrite Es. run. rewrite Hc. reflexivity.
Qed.

Lemma truncated_instructions_give_no_blocks_witness :
  decode_chunk ∅ (cis4 ++ [x00; x00; x00; x01] ++ [x00; x00; x00; x01]
                    ++ [x00; x2a; x09] ++ [x00; x00; x10; x00] ++ [x00; x03]) =
  Ok (Some (mkChunkRecord 1 ["unknown_42"%string] [] 0)).
Proof.
  etransitivity.
  - apply (truncated_instructions_give_no_blocks ∅ [x00; x00; x00; x01]
             [x00; x00; x00; x01] [x00; x2a; x09] [x00; x00; x10; x00] [x00; x03]);
      try reflexivity; vm_compute; discriminate.
  - vm_compute. reflexivity.
Defined.

(** X9: [decode_chunk] reads nothing after the block entity count: bytes
    appended to a complete payload do not change its result. *)
Theorem trailing_bytes_are_ignored mapping ver psz entries ilen inst bec extra :
  length ver = 4%nat -> length psz = 4%nat ->
  length entries = (3 * Z.to_nat (be_uint psz))%nat -> length ilen = 4%nat ->
  len inst = be_uint ilen -> length bec = 4%nat ->
  decode_chunk mapping (cis4 ++ ver ++ psz ++ entries ++ ilen ++ inst ++ bec ++ extra) =
  decode_chunk mapping (cis4 ++ ver ++ psz ++ entries ++ ilen ++ inst ++ bec).
Proof.
  intros Hv Hp He Hi Hn Hb. rewrite !decode_chunk_framed by assumption. cbv zeta.
  assert (Hl : Z.to_nat (be_uint ilen) = length inst) by (unfold len in Hn; lia).
  rewrite Hl, !take_app_length, !drop_app_length.
  replace 4%nat with (length bec) by exact Hb.
  rewrite take_app_length, take_ge by lia. reflexivity.
Qed.

Lemma trailing_bytes_are_ignored_witness :
  decode_chunk {[ 42 := "stone_stairs"%string ]} (example_payload ++ [xde; xad]) =
  decode_chunk {[ 42 := "stone_stairs"%string ]} example_payload.
Proof.
  apply (trailing_bytes_are_ignored {[ 42 := "stone_stairs"%string ]}
           [x00; x00; x00; x01] [x00; x00; x00; x01] [x00; x2a; x02]
           [x00; x00; x00; x0a]
           [x00; x01; x00; x00; x01; x00; x00; x03; x2a; xe6]
           [x00; x00; x00; x07] [xde; xad]); reflexivity.
Defined.

(** X10: a payload with complete header fields, and either no byte or at
    least 4 bytes where the block entity count goes, never yields [None] and
    raises nothing but [IndexError]: it decodes to a record, or a block
    record selected a local id outside its local palette. *)
Theorem framed_chunk_decodes_or_index_error mapping ver psz entries ilen rest :
  length ver = 4%nat -> length psz = 4%nat ->
  length entries = (3 * Z.to_nat (be_uint psz))%nat -> length ilen = 4%nat ->
  (length rest <= Z.to_nat (be_uint ilen) \/ Z.to_nat (be_uint ilen) + 4 <= length rest)%nat ->
  (exists c, decode_chunk mapping (cis4 ++ ver ++ psz ++ entries ++ ilen ++ rest)
             = Ok (Some c)) \/
  decode_chunk mapping (cis4 ++ ver ++ psz ++ entries ++ ilen ++ rest) = Raise IndexError.
Proof.
  intros Hv Hp He Hi Hrest. rewrite decode_chunk_framed by assumption. cbv zeta.
  set (tail := take 4 (drop (Z.to_nat (be_uint ilen)) rest)).
  assert (Hbe : exists n, (if is_empty tail then Ok 0 else unpack_I tail) = Ok n).
  { destruct Hrest as [Hs|Hl].
    - exists 0. subst tail. rewrite drop_ge by lia. reflexivity.
    - exists (be_uint tail). assert (length tail = 4%nat)
        by (subst tail; rewrite length_take, length_drop; lia).
      destruct tail; [discriminate|]. cbn [is_empty]. now apply unpack_I_ok. }
  destruct Hbe as [n ->]. run.
  pose proof (decode_instructions_blocks (entry_names mapping entries)
                (take (Z.to_nat (be_uint ilen)) rest)) as H.
  destruct (decode_instructions _ _) as [all|e]; run.
  - left. eauto.
  - right. now rewrite H.
Qed.

Lemma framed_chunk_decodes_or_index_error_witness :
  (exists c, decode_chunk {[ 42 := "stone"%string ]} local_id_payload = Ok (Some c)) \/
  decode_chunk {[ 42 := "stone"%string ]} local_id_payload = Raise IndexError.
Proof.
  apply (framed_chunk_decodes_or_index_error {[ 42 := "stone"%string ]}
           [x00; x00; x00; x01] [x00; x00; x00; x01] [x00; x2a; x02]
           [x00; x00; x00; x0d]
           [x00; x01; x00; x00; x03; x00; x00; x00; x00; x00; x00; x02; x70;
            x00; x00; x00; x00]); try reflexivity.
  right. vm_compute. lia.
Defined.

(** ** The mapping *)

Lemma flip_mapping_acc raw :
  forall (m : gmap Z string) k v,
    (foldl (fun m '(k, v) => <[v := k]> m) m raw !! v = Some k ->
     (k, v) ∈ raw \/ m !! v = Some k) /\
    (NoDup raw.*2 -> (k, v) ∈ raw ->
     foldl (fun m '(k, v) => <[v := k]> m) m raw !! v = Some k) /\
    (v ∉ raw.*2 ->
     foldl (fun m '(k, v) => <[v := k]> m) m raw !! v = m !! v).
Proof.
  induction raw as [|[k0 v0] raw IH]; intros m k v; cbn [foldl fmap list_fmap].
  - split; [now right|]. split; [|reflexivity]. intros _ H. now apply elem_of_nil in H.
  - destruct (IH (<[v0 := k0]> m) k v) as (IH1 & IH2 & IH3). split; [|split].
    + intros H. destruct (IH1 H) as [Hin|Hm]; [left; now right|].
      destruct (decide (v0 = v)) as [->|Hne].
      * rewrite lookup_insert_eq in Hm. injection Hm as ->. left. now left.
      * rewrite lookup_insert_ne in Hm by assumption. now right.
    + intros Hnd Hin. apply NoDup_cons in Hnd as [Hv0 Hnd].
      apply elem_of_cons in Hin as [[= -> ->]|Hin].
      * rewrite IH3 by assumption. apply lookup_insert_eq.
      * now apply IH2.
    + intros Hv. apply not_elem_of_cons in Hv as [Hne Hv].
      rewrite IH3 by assumption. now apply lookup_insert_ne.
Qed.

(** X11: the mapping that [load_mapping] builds sends an id only to a name
    that the loaded object gives that id; when the ids of the object are
    pairwise distinct it sends the id of every name back to that name. *)
Theorem flipped_mapping_inverts raw k v :
  (flip_mapping raw !! v = Some k -> (k, v) ∈ raw) /\
  (NoDup raw.*2 -> (k, v) ∈ raw -> flip_mapping raw !! v = Some k).
Proof.
  unfold flip_mapping. destruct (flip_mapping_acc raw ∅ k v) as (H1 & H2 & _).
  split; [|exact H2]. intros H. destruct (H1 H) as [Hin|He]; [exact Hin|].
  now rewrite lookup_empty in He.
Qed.

Lemma flipped_mapping_inverts_witness :
  flip_mapping [("stone"%string, 1); ("dirt"%string, 7)] !! 7 = Some "dirt"%string.
Proof.
  apply (flipped_mapping_inverts [("stone"%string, 1); ("dirt"%string, 7)]).
  - apply (bool_decide_unpack _). vm_compute. exact I.
  - apply (bool_decide_unpack _). vm_compute. exact I.
Defined.

(** ** World coordinates *)

(** X12: the world position shown for a block determines where it came
    from: with the chunk's slot coordinates and the block's [x] and [z] in
    0..15, the region, the slot and the block coordinates are the base-16
    digits of the world [x] and [z]. *)
Theorem world_position_digits rx rz lx lz b wx wy wz :
  0 <= lx < 16 -> 0 <= lz < 16 -> 0 <= x b < 16 -> 0 <= z b < 16 ->
  world_position (rx, rz) (lx, lz) b = (wx, wy, wz) ->
  wx `div` 256 = rx /\ (wx `div` 16) `mod` 16 = lx /\ wx `mod` 16 = x b /\
  wz `div` 256 = rz /\ (wz `div` 16) `mod` 16 = lz /\ wz `mod` 16 = z b /\
  wy = y b.
Proof.
  intros Hlx Hlz Hx Hz. unfold world_position. cbn [fst snd]. intros [= <- <- <-].
  pose proof (Z.div_mod ((rx * 16 + lx) * 16 + x b) 16).
  pose proof (Z.mod_pos_bound ((rx * 16 + lx) * 16 + x b) 16).
  pose proof (Z.div_mod ((rx * 16 + lx) * 16 + x b) 256).
  pose proof (Z.mod_pos_bound ((rx * 16 + lx) * 16 + x b) 256).
  pose proof (Z.div_mod (((rx * 16 + lx) * 16 + x b) `div` 16) 16).
  pose proof (Z.mod_pos_bound (((rx * 16 + lx) * 16 + x b) `div` 16) 16).
  pose proof (Z.div_mod ((rz * 16 + lz) * 16 + z b) 16).
  pose proof (Z.mod_pos_bound ((rz * 16 + lz) * 16 + z b) 16).
  pose proof (Z.div_mod ((rz * 16 + lz) * 16 + z b) 256).
  pose proof (Z.mod_pos_bound ((rz * 16 + lz) * 16 + z b) 256).
  pose proof (Z.div_mod (((rz * 16 + lz) * 16 + z b) `div` 16) 16).
  pose proof (Z.mod_pos_bound (((rz * 16 + lz) * 16 + z b) `div` 16) 16).
  repeat split; lia.
Qed.

Lemma world_position_digits_witness :
  world_position (-1, 2) (3, 15) (mkBlockChange 3 5 7 "stone") = (-205, 5, 759) /\
  (-205) `div` 256 = -1 /\ ((-205) `div` 16) `mod` 16 = 3 /\ (-205) `mod` 16 = 3 /\
  759 `div` 256 = 2 /\ (759 `div` 16) `mod` 16 = 15 /\ 759 `mod` 16 = 7 /\ 5 = 5.
Proof.
  split; [reflexivity|].
  apply (world_position_digits (-1) 2 3 15 (mkBlockChange 3 5 7 "stone") (-205) 5 759);
    try (simpl; lia). reflexivity.
Defined.

(** ** The chunk list of a region *)

Lemma slot_chunks_cases decompress mapping file header i :
  slot_chunks decompress mapping file header i = [] \/
  exists c payload,
    slot_chunks decompress mapping file header i = [(i `mod` 16, i `div` 16, c)] /\
    decode_chunk mapping payload = Ok (Some c).
Proof.
  unfold slot_chunks. destruct (slot_entry header i) as [off length].
  destruct ((off >? 0) && (length >? 0)); [|now left].
  destruct (decompress _) as [d|]; [|now left].
  destruct (decode_chunk mapping d) as [[c|]|e] eqn:E; try now left.
  right. now exists c, d.
Qed.

Lemma region_chunks_sublist decompress mapping file header k :
  forall i, 0 <= i -> i + Z.of_nat k <= 256 ->
    slot_index <$> flat_map (slot_chunks decompress mapping file header) (range_from i k)
      `sublist_of` range_from i k /\
    Forall chunk_entry_ok
      (flat_map (slot_chunks decompress mapping file header) (range_from i k)).
Proof.
  induction k as [|k IH]; intros i Hi Hk; cbn [range_from flat_map].
  - split; [reflexivity | constructor].
  - destruct (IH (i + 1)) as [IH1 IH2]; [lia | lia|].
    destruct (slot_chunks_cases decompress mapping file header i)
      as [->|(c & payload & -> & Hc)]; cbn [app fmap list_fmap].
    + split; [now apply sublist_cons | exact IH2].
    + split.
      * replace (slot_index (i `mod` 16, i `div` 16, c)) with i.
        -- now apply sublist_skip.
        -- unfold slot_index. pose proof (Z.div_mod i 16). lia.
      * constructor; [|exact IH2]. unfold chunk_entry_ok.
        pose proof (Z.mod_pos_bound i 16). pose proof (Z.div_mod i 16).
        destruct (decode_chunk_blocks mapping payload c Hc) as [inst Hinst].
        pose proof (decode_instructions_blocks (palette c) inst) as Hb.
        rewrite Hinst in Hb. repeat split; try lia. exact Hb.
Qed.

(** X13: the chunk list that [parse_region] builds over a 2048-byte header
    lists the decoded slots in increasing slot index
    [local_x + local_z * 16], each slot at most once, with [local_x] and
    [local_z] in 0..15 and well-formed blocks. *)
Theorem region_chunks_follow_slot_order decompress mapping file header chunks :
  length header = 2048%nat ->
  parse_region decompress mapping file header = Ok chunks ->
  slot_index <$> chunks `sublist_of` range_from 0 256 /\
  Forall chunk_entry_ok chunks.
Proof.
  intros Hl. unfold parse_region, for_range. change (Z.to_nat 256) with 256%nat.
  rewrite region_loop_chunks by (assumption || lia). rewrite app_nil_l. intros H.
  assert (E : chunks = flat_map (slot_chunks decompress mapping file header)
                         (range_from 0 256)) by congruence.
  rewrite E. apply region_chunks_sublist; lia.
Qed.

Lemma region_chunks_follow_slot_order_witness :
  slot_index <$> [(1, 0, example_chunk)] `sublist_of` range_from 0 256 /\
  Forall chunk_entry_ok [(1, 0, example_chunk)].
Proof.
  apply (region_chunks_follow_slot_order stored_decompress
           {[ 42 := "stone_stairs"%string ]} corrupt_region_file region_header).
  - vm_compute. reflexivity.
  - vm_compute. reflexivity.
Defined.

(** ** Loading a file *)

(** X14: without a mapping, or without a chosen file, [load_file] leaves
    the chunk list as it is.  With a mapping, whatever the chunk list held
    is dropped: a file of at least 2048 bytes is read as a region and
    loading it never raises; a shorter file is read as one chunk
    (decompressed if it decompresses, raw otherwise) and loading it gives
    one chunk at (0, 0), no chunk when [decode_chunk] returns [None], and
    the exception of [decode_chunk] when it raises. *)
Theorem load_file_cases decompress mapping file chunks :
  (forall chosen, load_file decompress ∅ chosen chunks = Ok chunks) /\
  load_file decompress mapping None chunks = Ok chunks /\
  (mapping <> ∅ -> 2048 <= len file ->
   exists new, load_file decompress mapping (Some file) chunks = Ok new /\
     new = flat_map (slot_chunks decompress mapping file (take 2048 file))
             (range_from 0 256) /\
     Forall chunk_entry_ok new) /\
  (mapping <> ∅ -> len file < 2048 ->
   load_file decompress mapping (Some file) chunks =
   match decode_chunk mapping (default file (decompress file)) with
   | Ok (Some c) => Ok [(0, 0, c)]
   | Ok None => Ok []
   | Raise e => Raise e
   end).
Proof.
  split; [reflexivity|]. split.
  { unfold load_file. destruct (bool_decide (mapping = ∅)); reflexivity. }
  unfold load_file, f_read. change (2048 <? 0) with false. cbv iota.
  change (Z.to_nat 2048) with 2048%nat. split; intros Hm Hlen.
  - rewrite bool_decide_eq_false_2 by exact Hm.
    assert (Hl : length (take 2048 file) = 2048%nat)
      by (rewrite length_take; unfold len in Hlen; lia).
    unfold len at 1. rewrite Hl. change (Z.of_nat 2048 <? 2048) with false. cbv iota.
    unfold parse_region, for_range. change (Z.to_nat 256) with 256%nat.
    rewrite region_loop_chunks by (assumption || lia). rewrite app_nil_l.
    eexists. split; [reflexivity|]. split; [reflexivity|].
    apply region_chunks_sublist; lia.
  - rewrite bool_decide_eq_false_2 by exact Hm.
    rewrite take_ge by (unfold len in Hlen; lia).
    destruct (Z.ltb_spec (len file) 2048); [|lia].
    unfold parse_single_chunk. destruct (decompress file) as [d|]; cbn [default];
      destruct (decode_chunk mapping _) as [[c|]|e]; reflexivity.
Qed.

Lemma load_file_cases_witness :
  load_file stored_decompress ∅ (Some example_payload) [(3, 4, example_chunk)]
    = Ok [(3, 4, example_chunk)] /\
  load_file stored_decompress {[ 42 := "stone_stairs"%string ]} (Some corrupt_region_file)
    [(3, 4, example_chunk)] = Ok [(1, 0, example_chunk)] /\
  load_file stored_decompress {[ 42 := "stone"%string ]} (Some local_id_payload)
    [(3, 4, example_chunk)] = Raise IndexError.
Proof.
  destruct (load_file_cases stored_decompress {[ 42 := "stone_stairs"%string ]}
              corrupt_region_file [(3, 4, example_chunk)]) as (H0 & _ & H1 & _).
  destruct (load_file_cases stored_decompress {[ 42 := "stone"%string ]}
              local_id_payload [(3, 4, example_chunk)]) as (_ & _ & _ & H2).
  split; [apply H0|]. split.
  - destruct H1 as (new & -> & -> & _).
    + apply (bool_decide_unpack _). vm_compute. exact I.
    + vm_compute. discriminate.
    + vm_compute. reflexivity.
  - rewrite H2.
    + vm_compute. reflexivity.
    + apply (bool_decide_unpack _). vm_compute. exact I.
    + vm_compute. reflexivity.
Defined.

(** ** Facing codes *)

Lemma append_inj_r (s a b : string) : s +:+ a = s +:+ b -> a = b.
Proof.
  induction s as [|c s IH]; simpl; [tauto|]. intros [= H]. now apply IH.
Qed.

Lemma get_facing_str_cases f :
  (0 <= f <= 5 /\ exists d, get_facing_str f = Some d) \/
  ((f < 0 \/ 5 < f) /\ get_facing_str f = None).
Proof.
  destruct f as [|p|p]; [left; split; [lia | now eexists] | | right; split; [lia | reflexivity]].
  destruct p as [[[|p|]|[|p|]|]|[[|p|]|[|p|]|]|];
    try (right; split; [lia | reflexivity]);
    left; (split; [lia | now eexists]).
Qed.

(** X15: [get_facing_str] names exactly the codes 0..5, with pairwise
    different names; so two global palette entries of the same mapping id
    have the same display string only if both facing codes are outside 0..5
    or the codes are equal. *)
Theorem facing_codes_are_told_apart mapping mapping_id f1 f2 :
  (is_Some (get_facing_str f1) <-> 0 <= f1 <= 5) /\
  (palette_name mapping mapping_id f1 = palette_name mapping mapping_id f2 ->
   (0 <= f1 <= 5 \/ 0 <= f2 <= 5) -> f1 = f2).
Proof.
  split.
  - destruct (get_facing_str_cases f1) as [[H [d ->]]|[H ->]].
    + split; [intros _; exact H | intros _; now eexists].
    + split; [intros [d Hd]; discriminate | lia].
  - unfold palette_name. intros Heq Hf. apply append_inj_r in Heq.
    destruct (get_facing_str_cases f1) as [[H1 _]|[H1 E1]];
      destruct (get_facing_str_cases f2) as [[H2 _]|[H2 E2]].
    + assert (C1 : f1 = 0 \/ f1 = 1 \/ f1 = 2 \/ f1 = 3 \/ f1 = 4 \/ f1 = 5) by lia.
      assert (C2 : f2 = 0 \/ f2 = 1 \/ f2 = 2 \/ f2 = 3 \/ f2 = 4 \/ f2 = 5) by lia.
      destruct C1 as [-> | [-> | [-> | [-> | [-> | ->]]]]];
        destruct C2 as [-> | [-> | [-> | [-> | [-> | ->]]]]];
        first [reflexivity | discriminate Heq].
    + rewrite E2 in Heq.
      assert (C1 : f1 = 0 \/ f1 = 1 \/ f1 = 2 \/ f1 = 3 \/ f1 = 4 \/ f1 = 5) by lia.
      destruct C1 as [-> | [-> | [-> | [-> | [-> | ->]]]]]; discriminate Heq.
    + rewrite E1 in Heq.
      assert (C2 : f2 = 0 \/ f2 = 1 \/ f2 = 2 \/ f2 = 3 \/ f2 = 4 \/ f2 = 5) by lia.
      destruct C2 as [-> | [-> | [-> | [-> | [-> | ->]]]]]; discriminate Heq.
    + lia.
Qed.

Lemma facing_codes_are_told_apart_witness :
  palette_name ∅ 42 2 <> palette_name ∅ 42 3.
Proof.
  intros H.
  assert (E : 2 = 3); [|discriminate E].
  apply (proj2 (facing_codes_are_told_apart ∅ 42 2 3) H). left. lia.
Defined.

(** ** Where a read leaves the cursor *)

(** X16: from a cursor within the buffer, a read of [n >= 0] bits leaves the
    cursor [n] bits further, or at the end of the buffer when fewer than [n]
    bits were left: never beyond the end. *)
Theorem read_moves_cursor_to_min r n v r' :
  cursor_ok r -> 0 <= n -> bitpos r <= 8 * len (data r) ->
  read n r = Ok (v, r') ->
  bitpos r' = Z.min (bitpos r + n) (8 * len (data r)).
Proof.
  intros Hok Hn Hin Hr.
  destruct (read_ok r n Hok Hn) as (? & ? & E & Hok' & Hd & _ & Hex & _).
  rewrite Hr in E. injection E as <- <-.
  destruct (Z_le_gt_dec (bitpos r + n) (8 * len (data r))) as [Hle|Hgt].
  - rewrite Z.min_l by lia. now apply Hex.
  - rewrite Z.min_r by lia. rewrite read_is_loop in Hr by assumption.
    destruct (read_loop_truncated r n 0 Hok) as (u & r2 & Hu & Hr2); [cbv zeta; lia|].
    rewrite Hr in Hr2. injection Hr2 as _ <-.
    rewrite Z.max_r in Hu by lia.
    destruct (read_loop_ok r (8 * len (data r) - bitpos r) 0 0 Hok)
      as (? & ? & E & _ & _ & _ & Hex2 & _); [lia | lia | simpl; lia|].
    rewrite Hu in E. injection E as <- <-. rewrite Hex2; lia.
Qed.

Lemma read_moves_cursor_to_min_witness :
  bitpos (mkBitReader [xab; xcd] 2 0) =
  Z.min (bitpos (mkBitReader [xab; xcd] 1 2) + 12) (8 * len [xab; xcd]).
Proof.
  apply (read_moves_cursor_to_min (mkBitReader [xab; xcd] 1 2) 12 0x340
           (mkBitReader [xab; xcd] 2 0));
    [unfold cursor_ok; simpl; lia | lia | vm_compute; discriminate
    | vm_compute; reflexivity].
Defined.

(** ** What [decode_chunk] returns *)

Lemma byte_val_range b : 0 <= byte_val b < 256.
Proof.
  unfold byte_val. pose proof (Byte.to_N_bounded b). lia.
Qed.

Lemma unpack_I_range bs n : unpack_I bs = Ok n -> 0 <= n < 2 ^ 32.
Proof.
  unfold unpack_I, len. destruct (Z.eqb_spec (Z.of_nat (length bs)) 4) as [Hl|];
    [|discriminate].
  intros [= <-]. destruct bs as [|a [|b [|c [|d [|]]]]]; try (simpl in Hl; lia).
  unfold be_uint. cbn [fold_left].
  pose proof (byte_val_range a). pose proof (byte_val_range b).
  pose proof (byte_val_range c). pose proof (byte_val_range d).
  change (2 ^ 32) with 4294967296. lia.
Qed.

Lemma palette_loop_length mapping k :
  forall i f gp f' gp',
    for_loop k i (fun _ => read_palette_entry mapping) (f, gp) = Ok (f', gp') ->
    length gp' = (length gp + k)%nat.
Proof.
  induction k as [|k IH]; intros i f gp f' gp'; cbn [for_loop].
  - intros [= _ <-]. lia.
  - destruct (read_palette_entry mapping (f, gp)) as [[f1 gp1]|e] eqn:E; run;
      [|discriminate].
    intros H. apply IH in H. rewrite H. clear H.
    unfold read_palette_entry in E. destruct (f_read 2 f) as [bs f2].
    destruct (unpack_H bs); cbn [mbind outcome_bind] in E; [|discriminate].
    destruct (f_read 1 f2) as [bs' f3].
    destruct (ord bs'); cbn [mbind outcome_bind] in E; [|discriminate].
    injection E as _ <-. rewrite length_app. simpl. lia.
Qed.

(** X17: [decode_chunk] returns [None] exactly on an empty stream and on a
    stream whose first 4 bytes are not the magic; and the record it returns
    otherwise has a version, a palette length and a block entity count that
    are unsigned 32-bit numbers. *)
Theorem decode_chunk_results mapping f :
  (decode_chunk mapping f = Ok None <->
   f = [] \/ ((4 <= length f)%nat /\ be_uint (take 4 f) <> 0x43495334)) /\
  (forall c, decode_chunk mapping f = Ok (Some c) ->
     take 4 f = cis4 /\ 0 <= version c < 2 ^ 32 /\
     len (palette c) < 2 ^ 32 /\ 0 <= be_count c < 2 ^ 32).
Proof.
  unfold decode_chunk, decode_chunk_with, f_read. fold decode_instructions.
  change (4 <? 0) with false. cbv iota.
  change (Z.to_nat 4) with 4%nat.
  destruct (take 4 f) as [|b0 bs] eqn:Et.
  { cbn [is_empty]. split; [|discriminate]. split; [intros _; left|reflexivity].
    destruct f; [reflexivity | discriminate Et]. }
  cbn [is_empty].
  assert (Hne : f <> []) by (intros ->; discriminate Et).
  assert (Hlt : length (b0 :: bs) = Nat.min 4 (length f))
    by (rewrite <- Et; apply length_take).
  destruct (unpack_I (b0 :: bs)) as [magic|e] eqn:Em; run;
    unfold unpack_I, len in Em;
    destruct (Z.eqb_spec (Z.of_nat (length (b0 :: bs))) 4) as [H4|H4];
    try discriminate Em.
  2: { split; [|discriminate]. split; [discriminate|]. intros [?|[? _]]; [tauto | lia]. }
  injection Em as <-.
  destruct (Z.eqb_spec (be_uint (b0 :: bs)) 0x43495334) as [Hm|Hm]; cbn [negb].
  2: { split; [|discriminate]. split; [intros _; right; split; [lia | exact Hm] | reflexivity]. }
  assert (Hcis : b0 :: bs = cis4).
  { destruct bs as [|b1 [|b2 [|b3 [|]]]]; try (simpl in H4; lia).
    revert Hm. unfold be_uint. cbn [fold_left].
    pose proof (byte_val_range b0). pose proof (byte_val_range b1).
    pose proof (byte_val_range b2). pose proof (byte_val_range b3).
    intros Hm.
    assert (byte_val b0 = 67 /\ byte_val b1 = 73 /\ byte_val b2 = 83 /\ byte_val b3 = 52)
      as (E0 & E1 & E2 & E3) by lia.
    unfold byte_val in *.
    assert (Hinj : forall b n, Z.of_N (Byte.to_N b) = Z.of_N (Byte.to_N n) -> b = n).
    { intros b n Hb. apply N2Z.inj in Hb.
      pose proof (Byte.of_to_N b) as Hb1. rewrite Hb, Byte.of_to_N in Hb1. congruence. }
    unfold cis4. f_equal; [|f_equal; [|f_equal; [|f_equal]]]; now apply Hinj. }
  destruct (unpack_I (take 4 (drop 4 f))) as [ver|e] eqn:Ev; run.
  2: { split; [split; [discriminate | intros [?|[_ ?]]; tauto] | discriminate]. }
  destruct (unpack_I (take 4 (drop 4 (drop 4 f)))) as [psz|e] eqn:Ep; run.
  2: { split; [split; [discriminate | intros [?|[_ ?]]; tauto] | discriminate]. }
  unfold for_range.
  destruct (for_loop (Z.to_nat psz) 0 _ _) as [[f4 gp]|e] eqn:El; run.
  2: { split; [split; [discriminate | intros [?|[_ ?]]; tauto] | discriminate]. }
  destruct (unpack_I (take 4 f4)) as [ilen|e]; run.
  2: { split; [split; [discriminate | intros [?|[_ ?]]; tauto] | discriminate]. }
  destruct (ilen <? 0).
  all: match goal with
       | |- context [if is_empty ?t then Ok 0 else unpack_I ?t] =>
           destruct (if is_empty t then Ok 0 else unpack_I t) as [be|e] eqn:Eb
       end; run.
  all: try (split; [split; [discriminate | intros [?|[_ ?]]; tauto] | discriminate]).
  all: match goal with
       | |- context [decode_instructions ?g ?i] =>
           destruct (decode_instructions g i) as [all|e]
       end; run.
  all: try (split; [split; [discriminate | intros [?|[_ ?]]; tauto] | discriminate]).
  all: split; [split; [discriminate | intros [?|[_ ?]]; tauto]|].
  all: intros c [= <-]; cbn [version palette be_count].
  all: split; [exact Hcis|]; split; [exact (unpack_I_range _ _ Ev)|].
  all: apply palette_loop_length in El; pose proof (unpack_I_range _ _ Ep).
  all: split; [unfold len; rewrite El; simpl; lia|].
  all: match type of Eb with
       | (if is_empty ?t then _ else _) = _ =>
           destruct t; cbn [is_empty] in Eb;
             [injection Eb as <-; change (2 ^ 32) with 4294967296; lia
             | exact (unpack_I_range _ _ Eb)]
       end.
Qed.

Lemma decode_chunk_results_witness :
  take 4 example_payload = cis4 /\ 0 <= version example_chunk < 2 ^ 32 /\
  len (palette example_chunk) < 2 ^ 32 /\ 0 <= be_count example_chunk < 2 ^ 32.
Proof.
  apply (proj2 (decode_chunk_results {[ 42 := "stone_stairs"%string ]} example_payload)).
  vm_compute. reflexivity.
Defined.

(** ** The order of the micro-cube calls of a chunk *)

(** [decode_chunk], over any method, on a payload whose fixed-width header
    fields are all there. *)
Lemma decode_chunk_with_framed cube mapping ver psz entries ilen rest :
  length ver = 4%nat -> length psz = 4%nat ->
  length entries = (3 * Z.to_nat (be_uint psz))%nat -> length ilen = 4%nat ->
  decode_chunk_with cube mapping (cis4 ++ ver ++ psz ++ entries ++ ilen ++ rest) =
  let inst_data := take (Z.to_nat (be_uint ilen)) rest in
  let be_count_data := take 4 (drop (Z.to_nat (be_uint ilen)) rest) in
  be_count ← (if is_empty be_count_data then Ok 0 else unpack_I be_count_data);
  all_blocks ← decode_instructions_with cube (entry_names mapping entries) inst_data;
  Ok (Some (mkChunkRecord (be_uint ver) (entry_names mapping entries)
              all_blocks be_count)).
Proof.
  intros Hv Hp He Hi. unfold decode_chunk_with.
  rewrite (f_read_app cis4) by reflexivity.
  cbn [is_empty cis4]. fold cis4. rewrite cis4_magic. run.
  change (negb (0x43495334 =? 0x43495334)) with false. cbv iota.
  rewrite (f_read_app ver) by (unfold len; lia).
  rewrite (unpack_I_ok ver Hv). run.
  rewrite (f_read_app psz) by (unfold len; lia).
  rewrite (unpack_I_ok psz Hp). run.
  unfold for_range. rewrite palette_loop_names by assumption. run. cbn [app].
  rewrite (f_read_app ilen) by (unfold len; lia).
  rewrite (unpack_I_ok ilen Hi). run.
  pose proof (be_uint_nonneg ilen).
  unfold f_read. destruct (Z.ltb_spec (be_uint ilen) 0); [lia|].
  change (4 <? 0) with false. cbv iota beta zeta. reflexivity.
Qed.

(** A payload that decodes to a chunk has all its fixed-width header
    fields. *)
Lemma be_uint_cis4 bs : length bs = 4%nat -> be_uint bs = 0x43495334 -> bs = cis4.
Proof.
  intros H4 Hm. destruct bs as [|b0 [|b1 [|b2 [|b3 [|]]]]]; try (simpl in H4; lia).
  revert Hm. unfold be_uint. cbn [fold_left].
  pose proof (byte_val_range b0). pose proof (byte_val_range b1).
  pose proof (byte_val_range b2). pose proof (byte_val_range b3).
  intros Hm.
  assert (byte_val b0 = 67 /\ byte_val b1 = 73 /\ byte_val b2 = 83 /\ byte_val b3 = 52)
    as (E0 & E1 & E2 & E3) by lia.
  unfold byte_val in *.
  assert (Hinj : forall b n, Z.of_N (Byte.to_N b) = Z.of_N (Byte.to_N n) -> b = n).
  { intros b n Hb. apply N2Z.inj in Hb.
    pose proof (Byte.of_to_N b) as Hb1. rewrite Hb, Byte.of_to_N in Hb1. congruence. }
  unfold cis4. f_equal; [|f_equal; [|f_equal; [|f_equal]]]; now apply Hinj.
Qed.

Lemma unpack_I_length bs n : unpack_I bs = Ok n -> length bs = 4%nat /\ n = be_uint bs.
Proof.
  unfold unpack_I, len. destruct (Z.eqb_spec (Z.of_nat (length bs)) 4); [|discriminate].
  intros [= <-]. split; [lia | reflexivity].
Qed.

Lemma palette_entry_consumes mapping f gp f1 gp1 :
  read_palette_entry mapping (f, gp) = Ok (f1, gp1) ->
  exists a b c, f = a :: b :: c :: f1.
Proof.
  destruct f as [|a [|b [|c f']]]; try discriminate.
  rewrite palette_entry_ok. intros [= <- _]. now exists a, b, c.
Qed.

Lemma palette_loop_consumes mapping k :
  forall i f gp f' gp',
    for_loop k i (fun _ => read_palette_entry mapping) (f, gp) = Ok (f', gp') ->
    exists entries, f = entries ++ f' /\ length entries = (3 * k)%nat.
Proof.
  induction k as [|k IH]; intros i f gp f' gp'; cbn [for_loop].
  - intros [= <- _]. now exists [].
  - destruct (read_palette_entry mapping (f, gp)) as [[f1 gp1]|e] eqn:E; run;
      [|discriminate].
    destruct (palette_entry_consumes _ _ _ _ _ E) as (a & b & c & ->).
    intros H. destruct (IH _ _ _ _ _ H) as (entries & -> & Hl).
    exists (a :: b :: c :: entries). split; [reflexivity | simpl; lia].
Qed.

Lemma decode_chunk_with_is_framed cube mapping f c :
  decode_chunk_with cube mapping f = Ok (Some c) ->
  exists ver psz entries ilen rest,
    f = cis4 ++ ver ++ psz ++ entries ++ ilen ++ rest /\
    length ver = 4%nat /\ length psz = 4%nat /\
    length entries = (3 * Z.to_nat (be_uint psz))%nat /\ length ilen = 4%nat.
Proof.
  unfold decode_chunk_with, f_read. change (4 <? 0) with false. cbv iota.
  change (Z.to_nat 4) with 4%nat.
  destruct (is_empty (take 4 f)); [discriminate|].
  destruct (unpack_I (take 4 f)) as [magic|e] eqn:Em; run; [|discriminate].
  apply unpack_I_length in Em as [Hl0 ->].
  destruct (Z.eqb_spec (be_uint (take 4 f)) 0x43495334) as [Hm|]; cbn [negb];
    [|discriminate].
  apply be_uint_cis4 in Hm; [|exact Hl0].
  destruct (unpack_I (take 4 (drop 4 f))) as [ver|e] eqn:Ev; run; [|discriminate].
  apply unpack_I_length in Ev as [Hl1 ->].
  destruct (unpack_I (take 4 (drop 4 (drop 4 f)))) as [psz|e] eqn:Ep; run; [|discriminate].
  apply unpack_I_length in Ep as [Hl2 ->].
  unfold for_range.
  destruct (for_loop _ 0 _ _) as [[f4 gp]|e] eqn:El; run; [|discriminate].
  apply palette_loop_consumes in El as (entries & Hf & Hle).
  destruct (unpack_I (take 4 f4)) as [ilen|e] eqn:Ei; run; [|discriminate].
  apply unpack_I_length in Ei as [Hl3 ->].
  intros _.
  exists (take 4 (drop 4 f)), (take 4 (drop 4 (drop 4 f))), entries, (take 4 f4), (drop 4 f4).
  split; [|repeat split; assumption].
  rewrite (take_drop 4 f4), <- Hf, (take_drop 4 (drop 4 (drop 4 f))),
    (take_drop 4 (drop 4 f)), <- Hm. symmetry. apply take_drop.
Qed.

(** C6: whatever method [decode_chunk] calls as the micro-cube decoder, on a
    payload with complete header fields it reads the 16-bit section count
    from the instruction bytes that follow the instruction length and, for
    each section, a 16-bit zigzag [section_y] and then calls the method once
    per coordinate of [cube_order], in that order, with that coordinate and
    that [section_y], all on the one reader; the block list of the chunk is
    the concatenation of what the calls returned, in call order.
    [cube_order] is major-Y outermost, then major-Z, then major-X: the call
    number [k] of a section has mx = k mod 4, my = k / 16 and
    mz = (k / 4) mod 4; and every section makes exactly 64 calls.  So does
    [decode_chunk] with [decode_micro_cube], the method of the class.  Every
    payload that decodes to a chunk has complete header fields. *)
Theorem chunk_blocks_follow_cube_order
    (cube : micro_cube_decoder) mapping ver psz entries ilen rest :
  length ver = 4%nat -> length psz = 4%nat ->
  length entries = (3 * Z.to_nat (be_uint psz))%nat -> length ilen = 4%nat ->
  let gp := entry_names mapping entries in
  let inst := take (Z.to_nat (be_uint ilen)) rest in
  let be_count_data := take 4 (drop (Z.to_nat (be_uint ilen)) rest) in
  decode_chunk_with cube mapping (cis4 ++ ver ++ psz ++ entries ++ ilen ++ rest) =
    (be_count ← (if is_empty be_count_data then Ok 0 else unpack_I be_count_data);
     '(section_count, r0) ← read 16 (new_reader inst);
     '(secs, _) ← section_calls_with cube gp (Z.to_nat section_count) r0;
     Ok (Some (mkChunkRecord (be_uint ver) gp
                 (concat (map (@concat BlockChange) secs)) be_count))) /\
  decode_chunk mapping (cis4 ++ ver ++ psz ++ entries ++ ilen ++ rest) =
    (be_count ← (if is_empty be_count_data then Ok 0 else unpack_I be_count_data);
     '(section_count, r0) ← read 16 (new_reader inst);
     '(secs, _) ← section_calls gp (Z.to_nat section_count) r0;
     Ok (Some (mkChunkRecord (be_uint ver) gp
                 (concat (map (@concat BlockChange) secs)) be_count))) /\
  cube_order = map (fun k => (k `mod` 4, k `div` 16, (k `div` 4) `mod` 4))
                   (range_from 0 64) /\
  (forall n r secs r',
     section_calls_with cube gp n r = Ok (secs, r') ->
     length secs = n /\ Forall (fun sec => length sec = 64%nat) secs) /\
  (forall f c,
     decode_chunk_with cube mapping f = Ok (Some c) ->
     exists ver' psz' entries' ilen' rest',
       f = cis4 ++ ver' ++ psz' ++ entries' ++ ilen' ++ rest' /\
       length ver' = 4%nat /\ length psz' = 4%nat /\
       length entries' = (3 * Z.to_nat (be_uint psz'))%nat /\ length ilen' = 4%nat).
Proof.
  intros Hv Hp He Hi gp inst be_count_data.
  assert (H : forall method : micro_cube_decoder,
    decode_chunk_with method mapping (cis4 ++ ver ++ psz ++ entries ++ ilen ++ rest) =
    (be_count ← (if is_empty be_count_data then Ok 0 else unpack_I be_count_data);
     '(section_count, r0) ← read 16 (new_reader inst);
     '(secs, _) ← section_calls_with method gp (Z.to_nat section_count) r0;
     Ok (Some (mkChunkRecord (be_uint ver) gp
                 (concat (map (@concat BlockChange) secs)) be_count)))).
  { intros method. rewrite decode_chunk_with_framed by assumption. cbv zeta.
    fold gp. fold inst. fold be_count_data.
    destruct (if is_empty be_count_data then Ok 0 else unpack_I be_count_data)
      as [be|e]; run; [|reflexivity].
    rewrite decode_instructions_with_calls.
    destruct (read 16 (new_reader inst)) as [[sc r0]|e]; run; [|reflexivity].
    destruct (section_calls_with method gp (Z.to_nat sc) r0) as [[secs r']|e];
      reflexivity. }
  split; [apply H|]. split; [apply (H decode_micro_cube)|].
  split; [vm_compute; reflexivity|].
  split; [intros n; apply section_calls_with_shape | apply decode_chunk_with_is_framed].
Qed.

Lemma chunk_blocks_follow_cube_order_witness :
  decode_chunk_with coordinates_probe ∅ one_section_payload =
    Ok (Some (mkChunkRecord 1 []
                (map (fun '(mx, my, mz) => mkBlockChange mx my mz "") cube_order) 0)) /\
  decode_chunk {[ 42 := "stone_stairs"%string ]} example_payload = Ok (Some example_chunk).
Proof.
  split.
  - destruct (chunk_blocks_follow_cube_order coordinates_probe ∅
                [x00; x00; x00; x01] [x00; x00; x00; x00] []
                [x00; x00; x00; x04] [x00; x01; x00; x00]
                eq_refl eq_refl eq_refl eq_refl) as [H _].
    etransitivity; [exact H | vm_compute; reflexivity].
  - destruct (chunk_blocks_follow_cube_order decode_micro_cube
                {[ 42 := "stone_stairs"%string ]}
                [x00; x00; x00; x01] [x00; x00; x00; x01] [x00; x2a; x02]
                [x00; x00; x00; x0a]
                [x00; x01; x00; x00; x01; x00; x00; x03; x2a; xe6; x00; x00; x00; x07]
                eq_refl eq_refl eq_refl eq_refl) as (_ & H & _).
    etransitivity; [exact H | vm_compute; reflexivity].
Defined.

(** One section seen through the probe: the blocks carry the coordinates of
    the calls, x fastest, then z, then y. *)
Example probe_of_one_section :
  decode_section_with coordinates_probe [] (new_reader [x00; x00], []) =
  Ok (mkBitReader [x00; x00] 2 0,
      map (fun '(mx, my, mz) => mkBlockChange mx my mz "")
        [(0, 0, 0); (1, 0, 0); (2, 0, 0); (3, 0, 0);
         (0, 0, 1); (1, 0, 1); (2, 0, 1); (3, 0, 1);
         (0, 0, 2); (1, 0, 2); (2, 0, 2); (3, 0, 2);
         (0, 0, 3); (1, 0, 3); (2, 0, 3); (3, 0, 3);
         (0, 1, 0); (1, 1, 0); (2, 1, 0); (3, 1, 0);
         (0, 1, 1); (1, 1, 1); (2, 1, 1); (3, 1, 1);
         (0, 1, 2); (1, 1, 2); (2, 1, 2); (3, 1, 2);
         (0, 1, 3); (1, 1, 3); (2, 1, 3); (3, 1, 3);
         (0, 2, 0); (1, 2, 0); (2, 2, 0); (3, 2, 0);
         (0, 2, 1); (1, 2, 1); (2, 2, 1); (3, 2, 1);
         (0, 2, 2); (1, 2, 2); (2, 2, 2); (3, 2, 2);
         (0, 2, 3); (1, 2, 3); (2, 2, 3); (3, 2, 3);
         (0, 3, 0); (1, 3, 0); (2, 3, 0); (3, 3, 0);
         (0, 3, 1); (1, 3, 1); (2, 3, 1); (3, 3, 1);
         (0, 3, 2); (1, 3, 2); (2, 3, 2); (3, 3, 2);
         (0, 3, 3); (1, 3, 3); (2, 3, 3); (3, 3, 3)]).
Proof. vm_compute. reflexivity. Qed.

(** ** The layout of a micro-cube *)

(** A cursor that satisfies the invariant is given by its bit position. *)
Lemma reader_at_cursor r : cursor_ok r -> r = reader_at (data r) (bitpos r).
Proof.
  intros [Hb Hbit]. destruct r as [d b i]. unfold reader_at, bitpos. cbn [data byte_index bit_index] in *.
  rewrite Z.div_add_l, Z.div_small, Z.add_0_r by lia.
  rewrite Z.add_comm, Z.mod_add, Z.mod_small by lia. reflexivity.
Qed.

Lemma reader_at_ok d p :
  0 <= p -> cursor_ok (reader_at d p) /\ data (reader_at d p) = d /\ bitpos (reader_at d p) = p.
Proof.
  intros Hp. unfold cursor_ok, reader_at, bitpos. cbn [data byte_index bit_index].
  pose proof (Z.div_mod p 8). pose proof (Z.mod_pos_bound p 8).
  assert (0 <= p `div` 8) by (apply Z.div_pos; lia).
  repeat split; lia.
Qed.

Lemma field_at_bounds d p k : 0 <= field_at d p k < 2 ^ Z.of_nat k.
Proof.
  induction k as [|k IH]; [simpl; lia|].
  rewrite Nat2Z.inj_succ, Z.pow_succ_r by lia. cbn [field_at].
  destruct (bit_at d (p + Z.of_nat k)); simpl; lia.
Qed.

(** A read within the buffer returns the field at the cursor. *)
Lemma read_value r k :
  cursor_ok r -> bitpos r + Z.of_nat k <= 8 * len (data r) ->
  forall v r', read (Z.of_nat k) r = Ok (v, r') -> v = field_at (data r) (bitpos r) k.
Proof.
  intros Hok. induction k as [|k IH]; intros Hin v r' Hr.
  - simpl in Hr. injection Hr as <- _. reflexivity.
  - rewrite Nat2Z.inj_succ in Hr, Hin. unfold Z.succ in Hr, Hin.
    destruct (read_succ r (Z.of_nat k) v r' Hok) as (vk & r1 & Ek & ->); [lia | lia | exact Hr|].
    rewrite (IH ltac:(lia) vk r1 Ek). cbn [field_at].
    rewrite lor_shiftl_add; [change (2 ^ 1) with 2; lia | lia |].
    destruct (bit_at _ _); simpl; lia.
Qed.

(** The three reads, from position [p], within the buffer. *)
Lemma read_at d p n :
  0 <= p -> 0 <= n -> p + n <= 8 * len d ->
  read n (reader_at d p) = Ok (field_at d p (Z.to_nat n), reader_at d (p + n)).
Proof.
  intros Hp Hn Hin. destruct (reader_at_ok d p Hp) as (Hok & Hd & Hb).
  destruct (read_ok (reader_at d p) n Hok Hn) as (v & r' & E & Hok' & Hd' & _ & Hx & _).
  rewrite Hd, Hb in Hx. specialize (Hx Hin).
  rewrite E. f_equal. f_equal.
  - rewrite <- (Z2Nat.id n) in E by assumption.
    rewrite (read_value (reader_at d p) (Z.to_nat n) Hok ltac:(rewrite Hd, Hb; lia) v r' E).
    now rewrite Hd, Hb.
  - rewrite (reader_at_cursor r' Hok'). congruence.
Qed.

Lemma read_bool_at d p :
  0 <= p -> p + 1 <= 8 * len d ->
  read_bool (reader_at d p) = Ok (bit_at d p, reader_at d (p + 1)).
Proof.
  intros Hp Hin. destruct (reader_at_ok d p Hp) as (Hok & Hd & Hb).
  destruct (read_bool_ok (reader_at d p) Hok) as (f & r' & E & Hok' & Hd' & _ & Hx).
  rewrite Hd, Hb in Hx. destruct (Hx Hin) as [-> Hp'].
  rewrite E. f_equal. f_equal. rewrite (reader_at_cursor r' Hok'). congruence.
Qed.

Lemma read_zigzag_at d p n :
  0 <= p -> 0 <= n -> p + n <= 8 * len d ->
  read_zigzag n (reader_at d p) = Ok (unzigzag (field_at d p (Z.to_nat n)), reader_at d (p + n)).
Proof.
  intros Hp Hn Hin. unfold read_zigzag. rewrite read_at by assumption.
  cbn [mbind outcome_bind]. rewrite zigzag_closed_form by apply field_at_bounds. reflexivity.
Qed.

Lemma skip_y_xz_bounds d p : p + 2 <= skip_y_xz d p <= p + 16.
Proof.
  unfold skip_y_xz. destruct (bit_at d p); destruct (bit_at d _); lia.
Qed.

Lemma record_end_ge d ps w p : 0 <= w -> p + 2 <= record_end d ps w p.
Proof.
  intros Hw. unfold record_end. pose proof (skip_y_xz_bounds d p).
  destruct (ps >? 1); [destruct (bit_at d _)|]; lia.
Qed.

Lemma iter_record_end_ge d ps w k :
  0 <= w -> forall p, p <= Nat.iter k (record_end d ps w) p.
Proof.
  intros Hw. induction k as [|k IH]; intros p; [simpl; lia|].
  rewrite Nat.iter_succ_r. pose proof (record_end_ge d ps w p Hw).
  specialize (IH (record_end d ps w p)). lia.
Qed.

(** One iteration of the block loop on a record that lies within the
    buffer. *)
Lemma decode_block_at gp sy ps w l2g d p last blocks :
  0 <= p -> 0 <= w -> record_end d ps w p <= 8 * len d ->
  decode_block gp sy ps w l2g (reader_at d p, last, blocks) =
  let '(ly, lxz, lid) := record_fields d ps w p last in
  st ← resolve_state l2g gp lid;
  Ok (reader_at d (record_end d ps w p), (ly, lxz, lid),
      blocks ++ [mkBlockChange (Z.land lxz 15) (Z.shiftl sy 4 + ly) (Z.shiftr lxz 4) st]).
Proof.
  intros Hp Hw. destruct last as [[ly lxz] lid].
  unfold decode_block, record_fields, record_end, skip_y_xz.
  set (p1 := p + 1 + (if bit_at d p then 6 else 0)).
  set (p2 := p1 + 1 + (if bit_at d p1 then 8 else 0)).
  intros Hin.
  assert (H1 : p + 1 <= p1 <= p + 7) by (subst p1; destruct (bit_at d p); lia).
  assert (H2 : p1 + 1 <= p2 <= p1 + 9) by (subst p2; destruct (bit_at d p1); lia).
  assert (Hin2 : p2 <= 8 * len d).
  { destruct (ps >? 1); [destruct (bit_at d p2)|]; lia. }
  rewrite read_bool_at by lia. run.
  assert (E1 : (if bit_at d p then read_zigzag 6 (reader_at d (p + 1))
                else Ok (0, reader_at d (p + 1))) =
               Ok (if bit_at d p then unzigzag (field_at d (p + 1) 6) else 0,
                   reader_at d p1)).
  { subst p1. destruct (bit_at d p).
    - rewrite read_zigzag_at by lia. reflexivity.
    - now rewrite Z.add_0_r. }
  rewrite E1. run.
  rewrite read_bool_at by lia. run.
  assert (E2 : (if bit_at d p1 then read 8 (reader_at d (p1 + 1))
                else Ok (lxz, reader_at d (p1 + 1))) =
               Ok (if bit_at d p1 then field_at d (p1 + 1) 8 else lxz,
                   reader_at d p2)).
  { subst p2. destruct (bit_at d p1).
    - rewrite read_at by lia. reflexivity.
    - now rewrite Z.add_0_r. }
  rewrite E2. run.
  destruct (ps >? 1); cbn [andb].
  - assert (p2 + 1 <= 8 * len d) by (destruct (bit_at d p2); lia).
    rewrite read_bool_at by lia. run. destruct (bit_at d p2).
    + rewrite read_at by lia. run. reflexivity.
    + run. replace (p2 + 1 + 0) with (p2 + 1) by lia. reflexivity.
  - run. reflexivity.
Qed.

Lemma block_loop_at gp sy ps w l2g d k :
  0 <= w ->
  forall i p last blocks,
    0 <= p -> Nat.iter k (record_end d ps w) p <= 8 * len d ->
    ('(r', _, bl) ← for_loop k i (fun _ => decode_block gp sy ps w l2g)
                      (reader_at d p, last, blocks);
     Ok (bl, r')) =
    (new ← block_records gp sy l2g d ps w k p last;
     Ok (blocks ++ new, reader_at d (Nat.iter k (record_end d ps w) p))).
Proof.
  intros Hw. induction k as [|k IH]; intros i p last blocks Hp Hin.
  - simpl. now rewrite app_nil_r.
  - rewrite Nat.iter_succ_r in Hin |- *. cbn [for_loop block_records].
    pose proof (record_end_ge d ps w p Hw) as Hge.
    pose proof (iter_record_end_ge d ps w k Hw (record_end d ps w p)) as Hge'.
    rewrite decode_block_at by lia.
    destruct (record_fields d ps w p last) as [[ly lxz] lid].
    destruct (resolve_state l2g gp lid) as [st|e]; run; [|reflexivity].
    rewrite IH by lia.
    destruct (block_records gp sy l2g d ps w k _ _) as [rest|e]; run; [|reflexivity].
    now rewrite <- app_assoc.
Qed.

Lemma local_palette_at_loop d k :
  forall i p acc,
    0 <= p -> p + 16 * Z.of_nat k <= 8 * len d ->
    for_loop k i (fun (_ : Z) '(reader, acc) =>
        '(gid, reader) ← read 16 reader; Ok (reader, acc ++ [gid])) (reader_at d p, acc) =
    Ok (reader_at d (p + 16 * Z.of_nat k), acc ++ local_palette_at d p k).
Proof.
  induction k as [|k IH]; intros i p acc Hp Hin.
  - simpl. now rewrite app_nil_r, Z.add_0_r.
  - cbn [for_loop local_palette_at]. rewrite read_at by lia. run.
    rewrite IH by lia. rewrite <- app_assoc.
    replace (p + 16 + 16 * Z.of_nat k) with (p + 16 * Z.of_nat (S k)) by lia.
    reflexivity.
Qed.

(** Line 102 computes [ceil(log2(palette_size))]. *)
Lemma bits_per_id_log2_up ps :
  bits_per_id_of ps = if ps >? 1 then Z.log2_up ps else 0.
Proof.
  destruct (Z.gtb_spec ps 1) as [Hps|Hps].
  - destruct (bits_per_id_bounds ps Hps) as [Hpos Hb].
    symmetry. apply Z.log2_up_unique; [assumption|].
    replace (Z.pred (bits_per_id_of ps)) with (bits_per_id_of ps - 1) by lia. exact Hb.
  - unfold bits_per_id_of. destruct (Z.gtb_spec ps 1); [lia | reflexivity].
Qed.

(** [decode_micro_cube] on a micro-cube with a non-empty local palette
    that lies within the buffer. *)
Lemma decode_micro_cube_at r gp mx my mz sy :
  cursor_ok r ->
  let d := data r in
  let p := bitpos r in
  let ps := field_at d p 8 in
  let w := if ps >? 1 then Z.log2_up ps else 0 in
  let l2g := local_palette_at d (p + 8) (Z.to_nat ps) in
  let n := Z.to_nat (field_at d (p + 8 + 16 * ps) 7) in
  let p0 := p + 8 + 16 * ps + 7 in
  let p_end := Nat.iter n (record_end d ps w) p0 in
  ps <> 0 -> p_end <= 8 * len d ->
  decode_micro_cube r gp mx my mz sy =
  (blocks ← block_records gp sy l2g d ps w n p0 (0, 0, 0);
   Ok (blocks, reader_at d p_end)).
Proof.
  intros Hok d p ps w l2g n p0 p_end Hps Hin.
  assert (Hp : 0 <= p) by (unfold p, bitpos, cursor_ok in *; lia).
  pose proof (field_at_bounds d p 8) as Hpsb. fold ps in Hpsb.
  assert (Hw : 0 <= w).
  { subst w. destruct (ps >? 1); [apply Z.log2_up_nonneg | lia]. }
  pose proof (iter_record_end_ge d ps w n Hw p0) as Hge. fold p_end in Hge.
  unfold decode_micro_cube. rewrite (reader_at_cursor r Hok). fold d. fold p.
  rewrite read_at by (subst p0; lia). change (Z.to_nat 8) with 8%nat. fold ps. run.
  destruct (Z.eqb_spec ps 0) as [|_]; [contradiction|].
  unfold for_range. rewrite local_palette_at_loop by (subst p0; lia). cbn [app].
  fold l2g. run. rewrite Z2Nat.id by lia.
  rewrite read_at by (subst p0; lia). change (Z.to_nat 7) with 7%nat. run.
  rewrite bits_per_id_log2_up. fold w. fold n.
  replace (p + 8 + 16 * ps + 7) with p0 by reflexivity.
  pose proof (block_loop_at gp sy ps w l2g d n Hw 0 p0 (0, 0, 0) [] ltac:(subst p0; lia) Hin) as H.
  fold p_end in H. etransitivity; [exact H|].
  destruct (block_records gp sy l2g d ps w n p0 (0, 0, 0)); reflexivity.
Qed.

(** C5: the width of a local id is [ceil(log2(palette_size))] for a local
    palette of more than one entry (the least [k] with
    [palette_size <= 2^k]) and 0 for a single entry.  A micro-cube whose
    local palette is the single entry [g] decodes without raising into
    [block_count] blocks that all have the state of local id 0, and each of
    its records takes the bits of its y field and xz field only.  And
    [decode_micro_cube] reads ids of that width: on a micro-cube with a local
    palette of [ps >= 1] entries that lies within the buffer, it decodes the
    [block_count] records laid out with an id field of a flag bit and
    [ceil(log2(ps))] bits when [ps > 1] and no id field when [ps = 1], each
    local id being the number those bits hold, or the local id of the record
    before when the flag is clear; it raises what resolving such an id
    raises, and leaves the reader right after the last record. *)
Theorem micro_cube_reads_ids_of_log2_up_bits
    palette_size r gp mx my mz sy r1 g r2 n r3 :
  (1 < palette_size ->
   bits_per_id_of palette_size = Z.log2_up palette_size /\
   2 ^ (bits_per_id_of palette_size - 1) < palette_size
     <= 2 ^ bits_per_id_of palette_size) /\
  bits_per_id_of 1 = 0 /\
  (cursor_ok r ->
   read 8 r = Ok (1, r1) -> read 16 r1 = Ok (g, r2) -> read 7 r2 = Ok (n, r3) ->
   exists s blocks r',
     decode_micro_cube r gp mx my mz sy = Ok (blocks, r') /\
     resolve_state [g] gp 0 = Ok s /\
     len blocks = n /\ Forall (fun b => state b = s) blocks /\
     (Nat.iter (Z.to_nat n) (skip_y_xz (data r)) (bitpos r3) <= 8 * len (data r) ->
      bitpos r' = Nat.iter (Z.to_nat n) (skip_y_xz (data r)) (bitpos r3))) /\
  (cursor_ok r ->
   let d := data r in
   let p := bitpos r in
   let ps := field_at d p 8 in
   let w := if ps >? 1 then Z.log2_up ps else 0 in
   let l2g := local_palette_at d (p + 8) (Z.to_nat ps) in
   let count := Z.to_nat (field_at d (p + 8 + 16 * ps) 7) in
   let p0 := p + 8 + 16 * ps + 7 in
   let p_end := Nat.iter count (record_end d ps w) p0 in
   ps <> 0 -> p_end <= 8 * len d ->
   decode_micro_cube r gp mx my mz sy =
   (blocks ← block_records gp sy l2g d ps w count p0 (0, 0, 0);
    Ok (blocks, reader_at d p_end))).
Proof.
  destruct (single_entry_micro_cube palette_size r gp mx my mz sy r1 g r2 n r3)
    as (H1 & H2 & H3).
  split; [exact H1|]. split; [exact H2|]. split; [exact H3|].
  apply decode_micro_cube_at.
Qed.

Lemma micro_cube_reads_ids_of_log2_up_bits_witness :
  let d := [x01; x00; x00; x05; x2a; xe6; x00] in
  (bits_per_id_of 5 = Z.log2_up 5 /\
   2 ^ (bits_per_id_of 5 - 1) < 5 <= 2 ^ bits_per_id_of 5) /\
  (exists s blocks r',
     decode_micro_cube (new_reader d) ["stone"%string] 0 0 0 0 = Ok (blocks, r') /\
     resolve_state [0] ["stone"%string] 0 = Ok s /\
     len blocks = 2 /\ Forall (fun b => state b = s) blocks /\
     bitpos r' = 31 + (1 + 6 + 1 + 8) + (1 + 1)) /\
  decode_micro_cube (new_reader three_entry_cube) ["stone"; "dirt"]%string 0 0 0 0 =
  Ok ([mkBlockChange 0 0 0 "dirt"; mkBlockChange 0 0 0 "dirt"],
      reader_at three_entry_cube (63 + (1 + 1 + 1 + 2) + (1 + 1 + 1))).
Proof.
  intros d.
  destruct (micro_cube_reads_ids_of_log2_up_bits 5 (new_reader d) ["stone"%string]
              0 0 0 0 (mkBitReader d 1 0) 0 (mkBitReader d 3 0) 2 (mkBitReader d 3 7))
    as (H1 & _ & H3 & _).
  destruct (micro_cube_reads_ids_of_log2_up_bits 5 (new_reader three_entry_cube)
              ["stone"; "dirt"]%string 0 0 0 0
              (new_reader []) 0 (new_reader []) 0 (new_reader []))
    as (_ & _ & _ & H4).
  split; [apply H1; lia|]. split.
  - destruct H3 as (s & blocks & r' & Hd & Hs & Hl & Hf & Hp);
      [unfold cursor_ok; simpl; lia | vm_compute; reflexivity ..|].
    exists s, blocks, r'. split; [exact Hd|]. split; [exact Hs|].
    split; [exact Hl|]. split; [exact Hf|].
    rewrite Hp; [vm_compute; reflexivity | vm_compute; discriminate].
  - etransitivity.
    + apply H4; [unfold cursor_ok; simpl; lia | vm_compute; discriminate
                | vm_compute; discriminate].
    + vm_compute. reflexivity.
Defined.
